(** * Chinese Restaurant Process clustering: the Gibbs sampler of
    [CRP_cluster.ipynb]

    A shallow embedding of the class [CRPClusterModel] (constructor,
    [initialize_assn], [fit]) and the properties of its partition state.

    Modelling choices, all taken from the notebook:
    - Python floats and numpy float64 entries are IEEE binary64 numbers: the
      kernel's primitive [float].  [alpha] is a Python float, as in both
      calls of the notebook, so a division by it or by [n + alpha] raises
      [ZeroDivisionError] on a zero divisor; a numpy division does not raise.
    - A cluster is a Python [set] object.  The same object is referenced from
      the list [clustering] and from the list [cluster_assn], so the sets live
      in a store and both lists hold locations.
    - Exceptions are explicit: every operation returns a [result].
    - [np.random.choice] reads and advances the process-wide generator; the
      generator state is threaded explicitly and the sampler is a parameter.
    - The likelihood provider is stored in the model, as
      [self.likelihood_fn] is.  It is a function of the dataset, the item
      index and the two lists with their sets read from the store, so it
      mutates nothing; it may raise. *)

From Stdlib Require Import ZArith Floats.
From Stdlib Require Uint63.
From stdpp Require Import gmap list.

(** ** Exceptions *)

Inductive exn : Set :=
  | ZeroDivisionError
  | ValueError
  | IndexError
  | KeyError
  | ProviderError.  (* whatever the likelihood provider itself raises *)

Inductive result (A : Type) : Type :=
  | Ok (a : A)
  | Raise (e : exn).
Arguments Ok {A} a.
Arguments Raise {A} e.

Global Instance result_ret : MRet result := λ A a, Ok a.
Global Instance result_bind : MBind result := λ A B f r,
  match r with
  | Ok a => f a
  | Raise e => Raise e
  end.

(** ** Floats *)

(** [float(z)] for a Python int (exact below 2^53, rounded to nearest up to
    2^62; list and set lengths never get there). *)
Definition float_of_int (z : Z) : float :=
  if (z <? 0)%Z then (- of_uint63 (Uint63.of_Z (- z)))%float
  else of_uint63 (Uint63.of_Z z).

(** [x / y] on Python floats. *)
Definition py_div (x y : float) : result float :=
  if (y =? 0)%float then Raise ZeroDivisionError else Ok (x / y)%float.

(** [a * b] on one-dimensional numpy arrays, with numpy's broadcasting: equal
    lengths multiply entry by entry, a one-entry array is stretched, any
    other pair of shapes is a [ValueError]. *)
Definition np_mul (a b : list float) : result (list float) :=
  if decide (length a = length b) then Ok (zip_with PrimFloat.mul a b)
  else match a, b with
       | [x], _ => Ok (PrimFloat.mul x <$> b)
       | _, [y] => Ok ((λ x, x * y)%float <$> a)
       | _, _ => Raise ValueError
       end.

(** [np.sum(a)] on a one-dimensional float array is numpy's add-reduction:
    the result starts at the identity [0.0] and the pairwise sum of the
    entries is added to it.  The pairwise sum adds fewer than eight entries
    from left to right, starting from [0.0]; up to 128 entries it keeps eight
    running sums, one per position modulo 8, adds them as a balanced tree
    and then adds the entries left over; above that it splits the array in
    two, the first part a multiple of eight. *)
Fixpoint add_blocks (blocks : nat) (r a : list float) : list float * list float :=
  match blocks with
  | 0 => (r, a)
  | S blocks' => add_blocks blocks' (zip_with PrimFloat.add r (take 8 a)) (drop 8 a)
  end.

Definition block_sum (a : list float) : float :=
  let '(r, rest) := add_blocks (length a / 8 - 1) (take 8 a) (drop 8 a) in
  match r with
  | [r0; r1; r2; r3; r4; r5; r6; r7] =>
      foldl PrimFloat.add (((r0 + r1) + (r2 + r3)) + ((r4 + r5) + (r6 + r7)))%float rest
  | _ => 0%float
  end.

(** The recursion on halves is bounded by [fuel]; the length of the array is
    enough ([pairwise_sum_fuel]). *)
Fixpoint pairwise_sum (fuel : nat) (a : list float) : float :=
  let n := length a in
  if n <? 8 then foldl PrimFloat.add 0%float a
  else if n <=? 128 then block_sum a
  else match fuel with
       | 0 => 0%float
       | S fuel' =>
           let n2 := n / 2 - (n / 2) `mod` 8 in
           (pairwise_sum fuel' (take n2 a) + pairwise_sum fuel' (drop n2 a))%float
       end.

Definition np_sum (a : list float) : float :=
  (0 + pairwise_sum (length a) a)%float.

(** [a / s] for an array and a scalar: no exception, IEEE results. *)
Definition np_div (a : list float) (s : float) : list float :=
  (λ x, x / s)%float <$> a.

(** ** The store of cluster objects *)

Abbreviation loc := nat (only parsing).
Abbreviation heap := (list (gset nat)) (only parsing).

(** The set at a location. *)
Definition deref (h : heap) (l : loc) : gset nat := h !!! l.

(** [set([i])]: a new object. *)
Definition alloc (s : gset nat) (h : heap) : loc * heap := (length h, h ++ [s]).

(** [s.remove(i)]: [KeyError] when [i] is not a member. *)
Definition set_remove (l : loc) (i : nat) (h : heap) : result heap :=
  if bool_decide (i ∈ deref h l) then Ok (<[l := deref h l ∖ {[i]}]> h)
  else Raise KeyError.

(** [s.add(i)]. *)
Definition set_add (l : loc) (i : nat) (h : heap) : heap :=
  <[l := deref h l ∪ {[i]}]> h.

(** [lst.remove(x)] on a list of set objects: drops the first entry that is
    [x] or compares equal to it ([==] on sets is equality of members);
    [ValueError] when there is none. *)
Fixpoint list_remove (h : heap) (x : loc) (c : list loc) : result (list loc) :=
  match c with
  | [] => Raise ValueError
  | y :: c' =>
      if bool_decide (y = x) || bool_decide (deref h y = deref h x) then Ok c'
      else c'' ← list_remove h x c'; Ok (y :: c'')
  end.

(** [lst[j]] for a non-negative [j]. *)
Definition list_get {A} (l : list A) (j : nat) : result A :=
  match l !! j with
  | Some a => Ok a
  | None => Raise IndexError
  end.

(** The two lists of [fit], with the store their entries point into. *)
Record pstate : Type := PState {
  store : heap;
  clustering : list loc;
  cluster_assn : list loc
}.

(** What a reader of the lists sees: the sets themselves. *)
Definition view (h : heap) (ls : list loc) : list (gset nat) := deref h <$> ls.
Definition clusters (st : pstate) : list (gset nat) := view (store st) (clustering st).
Definition assignment (st : pstate) : list (gset nat) := view (store st) (cluster_assn st).

(** ** The model object *)

Definition provider (D : Type) : Type :=
  list D → nat → list (gset nat) → list (gset nat) → result (list float).

Record model (D : Type) : Type := Model {
  alpha : float;
  likelihood_fn : provider D;
  num_iter : Z;
  eb_start : Z;
  eb_interval : Z
}.
Arguments Model {D} _ _ _ _ _.
Arguments alpha {D} _.
Arguments likelihood_fn {D} _.
Arguments num_iter {D} _.
Arguments eb_start {D} _.
Arguments eb_interval {D} _.

Definition set_alpha {D} (m : model D) (a : float) : model D :=
  Model a (likelihood_fn m) (num_iter m) (eb_start m) (eb_interval m).

Module CRPClusterModel.

(** [__init__(self, alpha, likelihood_fn)]: stores its two arguments and
    fixes the Gibbs parameters.  It has no failing path. *)
Definition __init__ {D} (alpha : float) (likelihood_fn : provider D) : result (model D) :=
  Ok (Model alpha likelihood_fn 100%Z 20%Z 5%Z).

Section Sampler.
Context {D rng : Type}.
(** [np.random.choice(a, p=p)] on generator state [g]: the drawn index and the
    next state, or the exception it raises. *)
Variable choice : rng → nat → list float → result (nat * rng).

(** The list comprehension and the [append] that build [crp_prior]: one
    entry per cluster, then the new-cluster entry. *)
Fixpoint crp_existing (n : Z) (a : float) (sizes : list nat) : result (list float) :=
  match sizes with
  | [] => Ok []
  | len :: sizes' =>
      p ← py_div (float_of_int (Z.of_nat len) + 0)%float (float_of_int n + a)%float;
      ps ← crp_existing n a sizes';
      Ok (p :: ps)
  end.

Definition crp_prior (n : Z) (a : float) (h : heap) (c : list loc) : result (list float) :=
  ps ← crp_existing n a (size <$> view h c);
  p ← py_div a (float_of_int n + a)%float;
  Ok (ps ++ [p]).

(** [probs = crp_prior * likelihood], before normalisation. *)
Definition combined (m : model D) (n : Z) (data : list D) (i : nat) (st : pstate)
  : result (list float) :=
  crp ← crp_prior n (alpha m) (store st) (clustering st);
  likelihood ← likelihood_fn m data i (clusters st) (assignment st);
  np_mul crp likelihood.

(** [probs = probs/np.sum(probs)] and the draw. *)
Definition draw (probs : list float) (g : rng) : result (nat * rng) :=
  let probs := np_div probs (np_sum probs) in
  choice g (length probs) probs.

(** The branch on the drawn slot.  Returns the new lists and whether a
    cluster was created. *)
Definition place (i cluster : nat) (h : heap) (c : list loc) : result (heap * list loc * bool) :=
  if decide (cluster = length c) then
    let '(s, h') := alloc {[i]} h in Ok (h', c ++ [s], true)
  else
    l ← list_get c cluster;
    Ok (set_add l i h, c, false).

(** One pass of the loop body of [initialize_assn]. *)
Definition init_step (m : model D) (data : list D) (i : nat) (st : pstate) (g : rng)
  : result (pstate * rng) :=
  probs ← combined m (Z.of_nat i) data i st;
  '(cluster, g) ← draw probs g;
  '(h, c, _) ← place i cluster (store st) (clustering st);
  l ← list_get c cluster;
  Ok (PState h c (cluster_assn st ++ [l]), g).

Fixpoint init_loop (m : model D) (data : list D) (items : list nat) (st : pstate) (g : rng)
  : result (pstate * rng) :=
  match items with
  | [] => Ok (st, g)
  | i :: items' => '(st, g) ← init_step m data i st g; init_loop m data items' st g
  end.

Definition initialize_assn (m : model D) (data : list D) (g : rng) : result (pstate * rng) :=
  init_loop m data (seq 0 (length data)) (PState [] [] []) g.

(** Lines 93-95 of [fit]: take [i] out of its cluster and drop the cluster
    from [clustering] when it is left empty. *)
Definition detach (i : nat) (st : pstate) : result pstate :=
  l ← list_get (cluster_assn st) i;
  h ← set_remove l i (store st);
  c ← (if decide (size (deref h l) = 0) then list_remove h l (clustering st)
       else Ok (clustering st));
  Ok (PState h c (cluster_assn st)).

(** One pass of the inner loop body of [fit]. *)
Definition gibbs_step (m : model D) (data : list D) (i : nat)
    (st : pstate) (num_new_clusters : float) (g : rng)
  : result (pstate * float * rng) :=
  let num_data := length data in
  st ← detach i st;
  probs ← combined m (Z.of_nat num_data - 1)%Z data i st;
  '(cluster, g) ← draw probs g;
  '(h, c, new) ← place i cluster (store st) (clustering st);
  let num_new_clusters :=
    if new : bool then (num_new_clusters + 1)%float else num_new_clusters in
  l ← list_get c cluster;
  Ok (PState h c (<[i := l]> (cluster_assn st)), num_new_clusters, g).

Fixpoint sweep_loop (m : model D) (data : list D) (items : list nat)
    (st : pstate) (num_new_clusters : float) (g : rng)
  : result (pstate * float * rng) :=
  match items with
  | [] => Ok (st, num_new_clusters, g)
  | i :: items' =>
      '(st, num_new_clusters, g) ← gibbs_step m data i st num_new_clusters g;
      sweep_loop m data items' st num_new_clusters g
  end.

(** The Empirical Bayes test and assignment that close a sweep.  [t % 0] is a
    [ZeroDivisionError]; Python's [%] takes the sign of the divisor, as
    [Z.modulo] does. *)
Definition eb_adjust (m : model D) (t : Z) (num_new_clusters : float) : result (model D) :=
  if decide (eb_interval m = 0%Z) then Raise ZeroDivisionError
  else if bool_decide (t `mod` eb_interval m = 0)%Z && bool_decide (eb_start m < t)%Z
       then Ok (set_alpha m num_new_clusters)
       else Ok m.

(** One pass of the outer loop body of [fit]: a sweep over all items. *)
Definition sweep (m : model D) (data : list D) (t : Z) (st : pstate) (g : rng)
  : result (pstate * model D * rng) :=
  '(st, num_new_clusters, g) ← sweep_loop m data (seq 0 (length data)) st 0%float g;
  m ← eb_adjust m t num_new_clusters;
  Ok (st, m, g).

Fixpoint fit_loop (m : model D) (data : list D) (ts : list Z) (st : pstate) (g : rng)
  : result (pstate * model D * rng) :=
  match ts with
  | [] => Ok (st, m, g)
  | t :: ts' => '(st, m, g) ← sweep m data t st g; fit_loop m data ts' st g
  end.

(** [range(n)] for a Python int. *)
Definition py_range (n : Z) : list Z := Z.of_nat <$> seq 0 (Z.to_nat n).

(** [fit(self, data)].  Returns the pair [(clustering, cluster_assn)] (the
    lists and the store they point into), the model object as the call leaves
    it ([self.alpha] may have been overwritten) and the generator state. *)
Definition fit (m : model D) (data : list D) (g : rng) : result (pstate * model D * rng) :=
  '(st, g) ← initialize_assn m data g;
  fit_loop m data (py_range (num_iter m)) st g.

End Sampler.
End CRPClusterModel.

Import CRPClusterModel.

(** ** A reference sampler *)

(** Modelled from the spec: the CategoricalSampler of section 4.5, which the
    notebook takes from numpy ([np.random.choice], not part of the
    repository).  It rejects an empty population, a vector of the wrong
    length, a NaN or infinite entry, a negative entry and a sum away from 1
    beyond the tolerance, then inverts the cumulative distribution at a
    uniform variate; the index is kept below the population size, as the
    contract requires.  The generator is a linear congruential one; its state
    is the seed. *)
Module Reference.

Definition atol : float := 0x1p-26%float.

Definition lcg_next (s : Z) : Z := ((1103515245 * s + 12345) `mod` 2147483648)%Z.

(** The variate in [0, 1) read off a state. *)
Definition uniform (s : Z) : float := (float_of_int s / 2147483648)%float.

Fixpoint cumsum (acc : float) (p : list float) : list float :=
  match p with
  | [] => []
  | x :: p' => let acc := (acc + x)%float in acc :: cumsum acc p'
  end.

(** [cdf.searchsorted(u, side='right')]: how many entries are at most [u]. *)
Fixpoint searchsorted (cdf : list float) (u : float) : nat :=
  match cdf with
  | [] => 0
  | c :: cdf' => if (c <=? u)%float then S (searchsorted cdf' u) else 0
  end.

Definition valid (a : nat) (p : list float) : bool :=
  negb (bool_decide (a = 0)) && bool_decide (length p = a)
  && forallb is_finite p
  && forallb (λ x, negb (x <? 0)%float) p
  && (abs (np_sum p - 1) <=? atol)%float.

Definition choice (g : Z) (a : nat) (p : list float) : result (nat * Z) :=
  if valid a p then
    let g' := lcg_next g in
    let cdf := cumsum 0%float p in
    let cdf := np_div cdf (List.last cdf 1%float) in
    Ok (Nat.min (searchsorted cdf (uniform g')) (a - 1), g')
  else Raise ValueError.

End Reference.

(** * Specification vocabulary *)

(** ** Points of a run of [fit] *)

Section Points.
Context {D rng : Type}.
Variable choice : rng → nat → list float → result (nat * rng).

(** After the first [i] passes of the loop of [initialize_assn]. *)
Definition init_prefix (m : model D) (data : list D) (g : rng) (i : nat)
  : result (pstate * rng) :=
  init_loop choice m data (seq 0 i) (PState [] [] []) g.

(** After initialization and the sweeps [0 .. T-1]. *)
Definition sweeps_prefix (m : model D) (data : list D) (g : rng) (T : nat)
  : result (pstate * model D * rng) :=
  '(st, g) ← initialize_assn choice m data g;
  fit_loop choice m data (py_range (Z.of_nat T)) st g.

(** After initialization, the sweeps [0 .. T-1] and the first [i] passes of
    sweep [T]; the counter is that of sweep [T]. *)
Definition sweep_prefix (m : model D) (data : list D) (g : rng) (T i : nat)
  : result (pstate * model D * float * rng) :=
  '(st, m, g) ← sweeps_prefix m data g T;
  '(st, c, g) ← sweep_loop choice m data (seq 0 i) st 0%float g;
  Ok (st, m, c, g).

End Points.

(** ** The partition state *)

(** The items satisfying [P] are placed: every cluster of [clustering] is a
    distinct live non-empty object, every placed item's reference is a
    cluster of [clustering] that holds it, and the clusters hold placed items
    only, each in the cluster its reference names. *)
Record coherent (P : nat → Prop) (st : pstate) : Prop := Coherent {
  coh_nodup : NoDup (clustering st);
  coh_live : ∀ l, l ∈ clustering st →
    l < length (store st) ∧ deref (store st) l ≠ ∅;
  coh_assn : ∀ j, P j →
    ∃ l, cluster_assn st !! j = Some l ∧ l ∈ clustering st ∧ j ∈ deref (store st) l;
  coh_member : ∀ l j, l ∈ clustering st → j ∈ deref (store st) l →
    P j ∧ cluster_assn st !! j = Some l
}.

(** The invariant of both loops: [n] items are placed, and the reference
    list has one entry per placed item. *)
Definition inv (n : nat) (st : pstate) : Prop :=
  length (cluster_assn st) = n ∧ coherent (λ j, j < n) st.

(** The sets of [cs] are pairwise disjoint (as entries of the list), their
    union is [{0, ..., N-1}], and none is empty. *)
Definition is_partition (N : nat) (cs : list (gset nat)) : Prop :=
  (∀ j1 j2 s1 s2 x,
     cs !! j1 = Some s1 → cs !! j2 = Some s2 → x ∈ s1 → x ∈ s2 → j1 = j2)
  ∧ (∀ x, x < N ↔ ∃ s, s ∈ cs ∧ x ∈ s)
  ∧ (∀ s, s ∈ cs → s ≠ ∅).

(** Every reference of [cluster_assn] is an object of [clustering], and
    that object holds the item. *)
Definition refs_live (st : pstate) : Prop :=
  ∀ i l, cluster_assn st !! i = Some l →
    l ∈ clustering st ∧ i ∈ deref (store st) l.

(** ** The CRP prior *)

(** [v] is the prior vector of section 4.1 for the clusters [cs], the
    denominator context [n] and the concentration [a]: one entry
    [size / (n + a)] per cluster, in order, then [a / (n + a)].  The
    numerator of a cluster entry is [len(x) + 0.0] in the code. *)
Definition is_crp_prior (n : Z) (a : float) (cs : list (gset nat)) (v : list float) : Prop :=
  length v = length cs + 1
  ∧ (∀ j s, cs !! j = Some s →
       v !! j = Some ((float_of_int (Z.of_nat (size s)) + 0) / (float_of_int n + a))%float)
  ∧ v !! length cs = Some (a / (float_of_int n + a))%float.

(** What the prior computation yields on state [st]: the vector, unless the
    denominator [n + a] is zero. *)
Definition prior_outcome (n : Z) (a : float) (st : pstate) : Prop :=
  if (float_of_int n + a =? 0)%float
  then crp_prior n a (store st) (clustering st) = Raise ZeroDivisionError
  else ∃ v, crp_prior n a (store st) (clustering st) = Ok v
            ∧ is_crp_prior n a (clusters st) v.

(** ** The Empirical Bayes schedule *)

(** What a counter started at [0.0] holds after [k] increments [+= 1]. *)
Definition count_float (k : nat) : float := Nat.iter k (λ c, c + 1)%float 0%float.

(** [t % self.eb_interval == 0 and t > self.eb_start], for a non-zero
    interval. *)
Definition eb_fires {D} (m : model D) (t : Z) : bool :=
  bool_decide (t `mod` eb_interval m = 0)%Z && bool_decide (eb_start m < t)%Z.

(** ** Degenerate probability vectors *)

(** A spec-level float that is NaN or an infinity. *)
Definition sf_nonfinite (f : spec_float) : bool :=
  match f with
  | S754_nan | S754_infinity _ => true
  | _ => false
  end.

(** A float that is neither zero, nor infinite, nor NaN. *)
Definition nonzero_finite (x : float) : bool := is_finite x && negb (x =? 0)%float.

(** The combined vector sums to zero or has a NaN or infinite entry. *)
Definition degenerate (probs : list float) : bool :=
  (np_sum probs =? 0)%float || existsb (λ x, negb (is_finite x)) probs.

(** ** What the proofs ask of the sampler *)

(** Section 4.5 has the sampler fail on a vector that does not sum to 1
    within tolerance.  The part of it used here: an empty population and a
    vector with a NaN or infinite entry are rejected, with the sampler's own
    exception. *)
Definition rejects_degenerate {rng : Type}
    (choice : rng → nat → list float → result (nat * rng)) : Prop :=
  ∀ g a p, a = 0 ∨ existsb (λ y, negb (is_finite y)) p = true →
    choice g a p = Raise ValueError.

(** The sampler draws slot 0 from the one-slot distribution [[1.0]]. *)
Definition certain_draw {rng : Type}
    (choice : rng → nat → list float → result (nat * rng)) : Prop :=
  ∀ g, ∃ g', choice g 1 [1%float] = Ok (0, g').

(** The sampler [choice] with a record of the indices drawn so far next to
    the generator state. *)
Definition logged {rng : Type} (choice : rng → nat → list float → result (nat * rng))
  : rng * list nat → nat → list float → result (nat * (rng * list nat)) :=
  λ gl a p,
    '(c, g') ← choice gl.1 a p;
    Ok (c, (g', gl.2 ++ [c])).

(** ** The one-item dataset *)

(** With no cluster to join, the provider answers with one non-zero finite
    likelihood (the length contract for [k = 0]). *)
Definition one_slot_provider {D} (m : model D) (data : list D) : Prop :=
  ∀ ca, ∃ l, likelihood_fn m data 0 [] ca = Ok [l] ∧ nonzero_finite l = true.

(** What a run on a one-item dataset needs from the model: an alpha that is
    finite and not zero, a provider that honours the one-slot contract and a
    non-zero interval. *)
Definition one_item_ready {D} (m : model D) (data : list D) : Prop :=
  nonzero_finite (alpha m) = true ∧ one_slot_provider m data
  ∧ eb_interval m ≠ 0%Z.

(** ** Runs with the same outcome *)



(** * Providers, models and data of the examples *)

(** The same likelihood for every slot. *)
Definition flat_likelihood : provider unit :=
  λ data i clustering cluster_assn, Ok (replicate (length clustering + 1) 1%float).

(** Eight times the likelihood for the new-cluster slot. *)
Definition prefer_new : provider unit :=
  λ data i clustering cluster_assn,
    Ok (replicate (length clustering) 1%float ++ [8%float]).

(** [prefer_new], written differently. *)
Definition prefer_new_alt : provider unit :=
  λ data i clustering cluster_assn,
    Ok (((λ _, 1%float) <$> clustering) ++ [(4 + 4)%float]).

(** A one-entry vector, whatever the number of clusters. *)
Definition one_entry_likelihood : provider unit :=
  λ data i clustering cluster_assn, Ok [1%float].

(** Two entries too many in the calls selected by [bad], the right length
    in the others. *)
Definition too_long_when (bad : nat → list (gset nat) → list (gset nat) → bool)
  : provider unit :=
  λ data i clustering cluster_assn,
    Ok (replicate (length clustering + (if bad i clustering cluster_assn then 3 else 1))
          1%float).

(** Likelihood zero (in the calls selected by [bad]) or one (in the others)
    for every slot. *)
Definition zero_when (bad : nat → list (gset nat) → list (gset nat) → bool)
  : provider unit :=
  λ data i clustering cluster_assn,
    Ok (replicate (length clustering + 1)
          (if bad i clustering cluster_assn then 0%float else 1%float)).

(** A negative likelihood for every slot. *)
Definition negative_likelihood : provider unit :=
  λ data i clustering cluster_assn,
    Ok (replicate (length clustering + 1) (-1)%float).

(** A dataset of three items, and models with the constructor's schedule and
    [alpha = 1.0], as in the notebook.  The [early] providers misbehave from
    the second pass of initialization on, the [late] ones from the first
    sweep on (the reference list is complete only then). *)
Definition demo_data : list unit := [(); (); ()].
Definition demo_model : model unit := Model 1%float prefer_new 100 20 5.
Definition flat_model : model unit := Model 1%float flat_likelihood 100 20 5.
Definition one_entry_model : model unit := Model 1%float one_entry_likelihood 100 20 5.
Definition negative_model : model unit := Model 1%float negative_likelihood 100 20 5.
Definition early_mismatch_model : model unit :=
  Model 1%float (too_long_when (λ i _ _, bool_decide (1 ≤ i))) 100 20 5.
Definition late_mismatch_model : model unit :=
  Model 1%float (too_long_when (λ _ _ ca, bool_decide (length ca = 3))) 100 20 5.
Definition early_zero_model : model unit :=
  Model 1%float (zero_when (λ i _ _, bool_decide (1 ≤ i))) 100 20 5.
Definition late_zero_model : model unit :=
  Model 1%float (zero_when (λ _ _ ca, bool_decide (length ca = 3))) 100 20 5.

(** * The likelihood of the one-dimensional demonstration *)

Section Likelihood1d.
(** [np.mean] on a one-dimensional array, [stats.norm.pdf(x, loc, scale)] on
    scalars, and the order in which [list(cluster)] lists a set: numpy, scipy
    and the Python runtime, not part of the repository. *)
Variable np_mean : list float → float.
Variable norm_pdf : float → float → float → float.
Variable py_list : gset nat → list nat.

(** [data[js]] for a list of indices: [IndexError] when one is out of
    bounds. *)
Fixpoint np_take (data : list float) (js : list nat) : result (list float) :=
  match js with
  | [] => Ok []
  | j :: js' => x ← list_get data j; xs ← np_take data js'; Ok (x :: xs)
  end.

(** [[np.mean(data[list(cluster)]) for cluster in clustering]]. *)
Fixpoint cluster_means (data : list float) (clustering : list (gset nat))
  : result (list float) :=
  match clustering with
  | [] => Ok []
  | cluster :: clustering' =>
      xs ← np_take data (py_list cluster);
      means ← cluster_means data clustering';
      Ok (np_mean xs :: means)
  end.

(** [likelihood_1d(data, i, clustering, cluster_assn)]: the density of item
    [i] under a unit-variance normal at each cluster's mean, then under the
    normal of mean 0 and deviation 10 for the new-cluster slot. *)
Definition likelihood_1d : provider float :=
  λ data i clustering cluster_assn,
    means ← cluster_means data clustering;
    let means := means ++ [float_of_int 0] in
    let stds := ((λ _, float_of_int 1) <$> clustering) ++ [float_of_int 10] in
    x ← list_get data i;
    Ok (zip_with (norm_pdf x) means stds).

End Likelihood1d.

(** * Vocabulary of the further properties *)

(** ** Partitions as values *)

(** Items [j] and [k] are in one cluster. *)
Definition same_cluster (cs : list (gset nat)) (j k : nat) : Prop :=
  ∃ s, s ∈ cs ∧ j ∈ s ∧ k ∈ s.

(** The clusters once item [i] is taken out: it leaves its set, and a set
    left empty leaves the list; the order of the others is kept. *)
Definition take_out (i : nat) (cs : list (gset nat)) : list (gset nat) :=
  filter (λ s, s ≠ ∅) ((λ s, s ∖ {[i]}) <$> cs).

(** The clusters once item [i] is put in slot [c]: a new singleton at the
    end for the slot after the last cluster, otherwise the cluster at [c]
    with [i] added. *)
Definition put_in (i c : nat) (cs : list (gset nat)) : list (gset nat) :=
  if decide (c = length cs) then cs ++ [{[i]}]
  else alter (λ s, s ∪ {[i]}) c cs.

(** ** Contracts of the collaborators *)

(** The provider returns vectors of the length the docstring of [__init__]
    asks for: one entry per cluster and one more. *)
Definition honours_length {D} (lik : provider D) : Prop :=
  ∀ data i cl ca v, lik data i cl ca = Ok v → length v = length cl + 1.

(** The provider calls [fit] makes on a dataset: for an item of the
    dataset, on non-empty clusters of items of the dataset, none of which
    holds the item. *)
Definition fit_call {D} (data : list D) (i : nat) (cl : list (gset nat)) : Prop :=
  i < length data
  ∧ ∀ s, s ∈ cl → s ≠ ∅ ∧ ∀ j, j ∈ s → j < length data ∧ j ≠ i.

(** The model object with another provider in place. *)
Definition set_likelihood_fn {D} (m : model D) (lik : provider D) : model D :=
  Model (alpha m) lik (num_iter m) (eb_start m) (eb_interval m).

(** The sampler's draws are below the population size. *)
Definition draws_in_range {rng : Type}
    (choice : rng → nat → list float → result (nat * rng)) : Prop :=
  ∀ g a p c g', choice g a p = Ok (c, g') → c < a.

(** The item and every member of every cluster index the dataset. *)
Definition indices_in_range {D} (data : list D) (i : nat) (cl : list (gset nat)) : Prop :=
  i < length data ∧ ∀ s j, s ∈ cl → j ∈ s → j < length data.

(** The sampler returns only a slot whose probability is positive, as the
    inversion of the cumulative distribution does. *)
Definition draws_positive {rng : Type}
    (choice : rng → nat → list float → result (nat * rng)) : Prop :=
  ∀ g a p c g', choice g a p = Ok (c, g') →
    ∃ x, p !! c = Some x ∧ (0 <? x)%float = true.

(** A zero of either sign, or NaN. *)
Definition zero_or_nan (x : float) : Prop :=
  match Prim2SF x with
  | S754_zero _ | S754_nan => True
  | _ => False
  end.

(** ** The draws of a run *)

(** A computation [r'] on the logging sampler follows the computation [r] on
    the sampler itself, and appends [n] draws to the log [l]. *)
Definition follows {A rng : Type} (n : nat) (l : list nat)
    (r : result (A * rng)) (r' : result (A * (rng * list nat))) : Prop :=
  match r with
  | Ok (a, g') => ∃ cs, length cs = n ∧ r' = Ok (a, (g', l ++ cs))
  | Raise e => r' = Raise e
  end.

(** ** The last adjustment of alpha *)

(** Sweep [t] passes the Empirical Bayes test, and no later sweep of the run
    does. *)
Definition last_adjustment {D} (m : model D) (t : nat) : bool :=
  eb_fires m (Z.of_nat t)
  && forallb (λ t', negb (eb_fires m t'))
       (Z.of_nat <$> seq (S t) (Z.to_nat (num_iter m) - S t)).

(** * Providers, samplers and models of the further examples *)

(** A one-item dataset and a model whose provider answers with three
    entries once the reference list is complete, that is, in the sweeps. *)
Definition one_item_data : list unit := [()].
Definition late_mismatch_single_model : model unit :=
  Model 1%float (too_long_when (λ _ _ ca, bool_decide (length ca = 1))) 100 20 5.

(** A model whose provider answers with three entries from the first call
    on. *)
Definition always_mismatch_model : model unit :=
  Model 1%float (too_long_when (λ _ _ _, true)) 100 20 5.

(** A model whose [eb_interval] was set to zero after construction. *)
Definition zero_interval_model : model unit := Model 1%float prefer_new 100 20 0.

(** A sampler without randomness: the first slot of positive probability. *)
Definition first_positive (g : unit) (a : nat) (p : list float) : result (nat * unit) :=
  match list_find (λ x, (0 <? x)%float = true) p with
  | Some (j, _) => Ok (j, g)
  | None => Raise ValueError
  end.

(** Instances of numpy's mean and scipy's density for the examples: the mean of the entries added in order, and
    a bell-shaped density (the Cauchy density without its constant; primitive
    floats have no exponential). *)
Definition mean_in_order (xs : list float) : float :=
  (np_sum xs / float_of_int (Z.of_nat (length xs)))%float.
Definition bell (x loc scale : float) : float :=
  (1 / (scale * (1 + ((x - loc) / scale) * ((x - loc) / scale))))%float.
Definition example_likelihood_1d : provider float :=
  likelihood_1d mean_in_order bell elements.
Definition example_data_1d : list float := [0.5; 9.5; 10.5]%float.
(** The model of the demonstration, with [eb_interval] set to zero after
    construction. *)
Definition zero_interval_model_1d : model float :=
  Model 1%float example_likelihood_1d 100 20 0.

(** A model with a negative number of sweeps. *)
Definition no_sweep_model : model unit := Model 1%float prefer_new (-3) 20 5.



(** * Properties *)

(** ** The sum of an array *)

Lemma pairwise_sum_fuel (f1 f2 : nat) (a : list float) :
  length a ≤ f1 → length a ≤ f2 → pairwise_sum f1 a = pairwise_sum f2 a.
Proof.
  revert f2 a. induction f1 as [|f1 IH]; intros f2 a H1 H2.
  - destruct a; [|simpl in H1; lia]. by destruct f2.
  - destruct f2 as [|f2]; [destruct a; [done | simpl in H2; lia]|].
    cbn [pairwise_sum].
    destruct (length a <? 8) eqn:E8; [done|].
    destruct (length a <=? 128) eqn:E128; [done|].
    apply Nat.leb_gt in E128.
    pose proof (Nat.div_mod_eq (length a) 2) as Hd.
    pose proof (Nat.mod_upper_bound (length a) 2) as Hm.
    pose proof (Nat.mod_upper_bound (length a / 2) 8) as Hm8.
    f_equal; apply IH; rewrite ?length_take, ?length_drop; lia.
Qed.

(** From eight entries on the order of the additions shows: here the sum
    from left to right loses every [1.0]. *)
Lemma np_sum_eight_entries :
  np_sum (10000000000000000 :: replicate 7 1)%float = 10000000000000006%float
  ∧ foldl PrimFloat.add 0%float (10000000000000000 :: replicate 7 1)%float
    = 10000000000000000%float.
Proof. split; vm_compute; reflexivity. Qed.

(** ** Results and loops *)

Lemma bind_Ok {A B} (r : result A) (f : A → result B) (b : B) :
  r ≫= f = Ok b ↔ ∃ a, r = Ok a ∧ f a = Ok b.
Proof.
  destruct r as [a|e]; simpl.
  - split; [eauto | intros (a' & [= <-] & H); done].
  - split; [done | intros (a' & [=] & _)].
Qed.

Lemma list_get_Ok {A} (l : list A) (j : nat) (a : A) :
  list_get l j = Ok a ↔ l !! j = Some a.
Proof. unfold list_get. destruct (l !! j); split; congruence. Qed.

(** Splits an equation [c = Ok _] along the binds of [c]. *)
Ltac ok_inv H :=
  repeat match type of H with
  | (_ ≫= _) = Ok _ =>
      let x := fresh "x" in let Hx := fresh "Hx" in
      apply bind_Ok in H as (x & Hx & H); simpl in H;
      try apply list_get_Ok in Hx
  | (let '(_, _) := ?p in _) = Ok _ => destruct p; simpl in H
  | list_get _ _ = Ok _ => apply list_get_Ok in H
  end.

Section Loops.
Context {D rng : Type}.
Variable choice : rng → nat → list float → result (nat * rng).

Lemma init_loop_app (m : model D) data xs ys st g :
  init_loop choice m data (xs ++ ys) st g
  = '(st', g') ← init_loop choice m data xs st g; init_loop choice m data ys st' g'.
Proof.
  revert st g. induction xs as [|x xs IH]; intros st g; simpl; [done|].
  destruct (init_step choice m data x st g) as [[st' g']|e]; simpl; [apply IH | done].
Qed.

Lemma sweep_loop_app (m : model D) data xs ys st c g :
  sweep_loop choice m data (xs ++ ys) st c g
  = '(st', c', g') ← sweep_loop choice m data xs st c g;
    sweep_loop choice m data ys st' c' g'.
Proof.
  revert st c g. induction xs as [|x xs IH]; intros st c g; simpl; [done|].
  destruct (gibbs_step choice m data x st c g) as [[[st' c'] g']|e]; simpl;
    [apply IH | done].
Qed.

Lemma fit_loop_app (m : model D) data xs ys st g :
  fit_loop choice m data (xs ++ ys) st g
  = '(st', m', g') ← fit_loop choice m data xs st g; fit_loop choice m' data ys st' g'.
Proof.
  revert m st g. induction xs as [|x xs IH]; intros m st g; simpl; [done|].
  destruct (sweep choice m data x st g) as [[[st' m'] g']|e]; simpl; [apply IH | done].
Qed.

End Loops.

(** ** The store *)

Lemma deref_insert_eq (h : heap) (l : loc) (s : gset nat) :
  l < length h → deref (<[l := s]> h) l = s.
Proof. intros Hl. unfold deref. by rewrite list_lookup_total_insert_eq. Qed.

Lemma deref_insert_ne (h : heap) (l l' : loc) (s : gset nat) :
  l ≠ l' → deref (<[l := s]> h) l' = deref h l'.
Proof. intros Hl. unfold deref. by rewrite list_lookup_total_insert_ne. Qed.

Lemma deref_app_l (h : heap) (l : loc) (s : gset nat) :
  l < length h → deref (h ++ [s]) l = deref h l.
Proof. intros Hl. unfold deref. by rewrite lookup_total_app_l. Qed.

Lemma deref_app_new (h : heap) (s : gset nat) : deref (h ++ [s]) (length h) = s.
Proof. unfold deref. rewrite lookup_total_app_r by lia. by rewrite Nat.sub_diag. Qed.

Lemma coherent_iff (P Q : nat → Prop) st :
  (∀ j, P j ↔ Q j) → coherent P st → coherent Q st.
Proof.
  intros HPQ [H1 H2 H3 H4]. split; [done | done | |].
  - intros j Hj. apply H3, HPQ, Hj.
  - intros l j Hl Hj. destruct (H4 l j Hl Hj) as [HP Ha]. split; [by apply HPQ | done].
Qed.

Lemma coherent_empty : coherent (λ j, j < 0) (PState [] [] []).
Proof.
  split; simpl.
  - constructor.
  - intros l Hl. by apply elem_of_nil in Hl.
  - intros j Hj. lia.
  - intros l j Hl. by apply elem_of_nil in Hl.
Qed.

(** Placing item [i], which is in no cluster, and pointing its reference at
    the chosen cluster. *)
Lemma place_coherent (P : nat → Prop) i cluster st h c new l assn' :
  coherent P st → ¬ P i →
  place i cluster (store st) (clustering st) = Ok (h, c, new) →
  c !! cluster = Some l →
  assn' !! i = Some l →
  (∀ j, j ≠ i → assn' !! j = cluster_assn st !! j) →
  coherent (λ j, P j ∨ j = i) (PState h c assn').
Proof.
  intros [Hnd Hlive Hassn Hmem] HPi Hplace Hl Hi Hother. unfold place in Hplace.
  destruct (decide (cluster = length (clustering st))) as [->|Hne].
  - simpl in Hplace. injection Hplace as <- <- <-.
    rewrite lookup_app_r in Hl by lia. rewrite Nat.sub_diag in Hl.
    injection Hl as <-.
    split; simpl.
    + apply NoDup_app. split; [done|]. split; [|apply NoDup_singleton].
      intros x Hx Hx'. apply list_elem_of_singleton in Hx'.
      apply Hlive in Hx. lia.
    + intros l Hl. apply elem_of_app in Hl as [Hl | Hl].
      * destruct (Hlive l Hl) as [Hlt Hne]. rewrite length_app. simpl.
        rewrite deref_app_l by done. split; [lia | done].
      * apply list_elem_of_singleton in Hl as ->. rewrite length_app. simpl.
        rewrite deref_app_new. split; [lia | set_solver].
    + intros j [Hj | ->].
      * destruct (Hassn j Hj) as (l & Hjl & Hl & Hjm).
        assert (j ≠ i) by (intros ->; done).
        exists l. rewrite Hother by done. split; [done|]. split; [set_solver|].
        rewrite deref_app_l; [done | by apply Hlive].
      * exists (length (store st)). split; [done|]. split; [set_solver|].
        rewrite deref_app_new. set_solver.
    + intros l j Hl Hj. apply elem_of_app in Hl as [Hl | Hl].
      * rewrite deref_app_l in Hj by (by apply Hlive).
        destruct (Hmem l j Hl Hj) as [HPj Hjl].
        assert (j ≠ i) by (intros ->; done).
        split; [by left|]. by rewrite Hother.
      * apply list_elem_of_singleton in Hl as ->. rewrite deref_app_new in Hj.
        apply elem_of_singleton in Hj as ->. split; [by right | done].
  - ok_inv Hplace. injection Hplace as <- <- <-.
    rewrite Hl in Hx. injection Hx as <-.
    assert (Hlc : l ∈ clustering st) by (eapply list_elem_of_lookup_2; done).
    destruct (Hlive l Hlc) as [Hlt Hlne].
    split; simpl.
    + done.
    + intros l' Hl'. unfold set_add. rewrite length_insert.
      destruct (Hlive l' Hl') as [Hlt' Hne'].
      split; [done|]. destruct (decide (l = l')) as [<-|Hll].
      * rewrite deref_insert_eq by done. set_solver.
      * by rewrite deref_insert_ne.
    + intros j [Hj | ->].
      * destruct (Hassn j Hj) as (l' & Hjl & Hl' & Hjm).
        assert (j ≠ i) by (intros ->; done).
        exists l'. rewrite Hother by done. split; [done|]. split; [done|].
        unfold set_add. destruct (decide (l = l')) as [<-|Hll].
        -- rewrite deref_insert_eq by done. set_solver.
        -- by rewrite deref_insert_ne.
      * exists l. split; [done|]. split; [done|].
        unfold set_add. rewrite deref_insert_eq by done. set_solver.
    + intros l' j Hl' Hj. unfold set_add in Hj.
      destruct (decide (l = l')) as [<-|Hll].
      * rewrite deref_insert_eq in Hj by done.
        apply elem_of_union in Hj as [Hj | Hj].
        -- destruct (Hmem l j Hlc Hj) as [HPj Hjl].
           assert (j ≠ i) by (intros ->; done).
           split; [by left|]. by rewrite Hother.
        -- apply elem_of_singleton in Hj as ->. split; [by right | done].
      * rewrite deref_insert_ne in Hj by done.
        destruct (Hmem l' j Hl' Hj) as [HPj Hjl].
        assert (j ≠ i) by (intros ->; done).
        split; [by left|]. by rewrite Hother.
Qed.

(** [lst.remove] finds the very object when no other entry compares equal
    to it. *)
Lemma list_remove_spec (h : heap) (x : loc) (c c' : list loc) :
  NoDup c → x ∈ c →
  (∀ y, y ∈ c → y ≠ x → deref h y ≠ deref h x) →
  list_remove h x c = Ok c' →
  NoDup c' ∧ ∀ y, y ∈ c' ↔ y ∈ c ∧ y ≠ x.
Proof.
  revert c'. induction c as [|y c IH]; intros c' Hnd Hx Hne Hrm; simpl in Hrm.
  - by apply elem_of_nil in Hx.
  - apply NoDup_cons in Hnd as [Hy Hnd].
    destruct (decide (y = x)) as [->|Hyx].
    + rewrite bool_decide_eq_true_2 in Hrm by done. simpl in Hrm.
      injection Hrm as <-. split; [done|].
      intros z. split.
      * intros Hz. split; [set_solver|]. intros ->. done.
      * intros [Hz Hzx]. set_solver.
    + rewrite bool_decide_eq_false_2 in Hrm by done.
      rewrite bool_decide_eq_false_2 in Hrm by (apply Hne; [set_solver | done]).
      simpl in Hrm. ok_inv Hrm. injection Hrm as <-.
      assert (Hxc : x ∈ c) by set_solver.
      destruct (IH x0 Hnd Hxc) as [Hnd' Hiff]; [ | done | ].
      { intros z Hz. apply Hne. set_solver. }
      split.
      * apply NoDup_cons. split; [|done]. rewrite Hiff. tauto.
      * intros z. rewrite !elem_of_cons, Hiff. split.
        -- intros [-> | [Hz Hzx]]; [split; [by left | done] | split; [by right | done]].
        -- intros [[-> | Hz] Hzx]; [by left | by right].
Qed.

(** Taking [i] out: its reference is left as it was (now stale), the other
    items stay placed. *)
Lemma detach_coherent (n i : nat) (st st' : pstate) :
  coherent (λ j, j < n) st → length (cluster_assn st) = n →
  detach i st = Ok st' →
  i < n ∧ cluster_assn st' = cluster_assn st
  ∧ length (store st') = length (store st)
  ∧ coherent (λ j, j < n ∧ j ≠ i) st'.
Proof.
  intros [Hnd Hlive Hassn Hmem] Hlen Hd. unfold detach in Hd. ok_inv Hd.
  rename x into l, x0 into h, x1 into c, Hx into Hl, Hx0 into Hh, Hx1 into Hc.
  injection Hd as <-. simpl.
  assert (Hi : i < n) by (rewrite <- Hlen; by eapply lookup_lt_Some).
  destruct (Hassn i Hi) as (l' & Hl' & Hlc & Hil). rewrite Hl in Hl'.
  injection Hl' as <-. destruct (Hlive l Hlc) as [Hlt Hlne].
  unfold set_remove in Hh. rewrite bool_decide_eq_true_2 in Hh by done.
  injection Hh as <-.
  assert (Hderef : ∀ l', l' ≠ l →
    deref (<[l := deref (store st) l ∖ {[i]}]> (store st)) l' = deref (store st) l').
  { intros l' Hne. by apply deref_insert_ne. }
  rewrite deref_insert_eq in Hc by done.
  split; [done|]. split; [done|]. split; [by rewrite length_insert|].
  destruct (decide (size (deref (store st) l ∖ {[i]}) = 0)) as [Hz | Hnz].
  - apply size_empty_iff in Hz. apply leibniz_equiv in Hz.
    apply list_remove_spec in Hc as [Hnd' Hiff]; [ | done | done | ].
    2:{ intros y Hy Hyl. rewrite deref_insert_eq by done.
        rewrite Hderef by done. rewrite Hz. by apply Hlive. }
    split; simpl.
    + done.
    + intros l' Hl'. apply Hiff in Hl' as [Hl' Hne]. rewrite length_insert.
      rewrite Hderef by done. by apply Hlive.
    + intros j [Hj Hji]. destruct (Hassn j Hj) as (l' & Hjl & Hl' & Hjm).
      assert (l' ≠ l).
      { intros ->. assert (j ∈ deref (store st) l ∖ {[i]}) by set_solver.
        rewrite Hz in H. set_solver. }
      exists l'. split; [done|]. split; [by apply Hiff|]. by rewrite Hderef.
    + intros l' j Hl' Hj. apply Hiff in Hl' as [Hl' Hne].
      rewrite Hderef in Hj by done.
      destruct (Hmem l' j Hl' Hj) as [Hjn Hjl]. split; [|done].
      split; [done|]. intros ->. rewrite Hl in Hjl. by injection Hjl as ->.
  - injection Hc as <-. split; simpl.
    + done.
    + intros l' Hl'. rewrite length_insert. destruct (Hlive l' Hl') as [Hlt' Hne'].
      split; [done|]. destruct (decide (l' = l)) as [->|Hne].
      * rewrite deref_insert_eq by done. intros Hempty. rewrite Hempty in Hnz.
        by rewrite size_empty in Hnz.
      * by rewrite Hderef.
    + intros j [Hj Hji]. destruct (Hassn j Hj) as (l' & Hjl & Hl' & Hjm).
      exists l'. split; [done|]. split; [done|].
      destruct (decide (l' = l)) as [->|Hne].
      * rewrite deref_insert_eq by done. set_solver.
      * by rewrite Hderef.
    + intros l' j Hl' Hj. destruct (decide (l' = l)) as [->|Hne].
      * rewrite deref_insert_eq in Hj by done.
        apply elem_of_difference in Hj as [Hj Hji].
        destruct (Hmem l j Hl' Hj) as [Hjn Hjl]. split; [|done].
        split; [done | set_solver].
      * rewrite Hderef in Hj by done.
        destruct (Hmem l' j Hl' Hj) as [Hjn Hjl]. split; [|done].
        split; [done|]. intros ->. rewrite Hl in Hjl. by injection Hjl as ->.
Qed.

Section Invariant.
Context {D rng : Type}.
Variable choice : rng → nat → list float → result (nat * rng).

Lemma init_step_inv (m : model D) data i st g st' g' :
  inv i st → init_step choice m data i st g = Ok (st', g') → inv (S i) st'.
Proof.
  intros [Hlen Hcoh] Hstep. unfold init_step in Hstep. ok_inv Hstep.
  injection Hstep as <- <-. split; simpl.
  - rewrite length_app. simpl. lia.
  - eapply coherent_iff; [|eapply (place_coherent (λ j, j < i)); try done].
    + intros j. simpl. lia.
    + lia.
    + rewrite lookup_app_r by lia. by rewrite Hlen, Nat.sub_diag.
    + intros j Hj. destruct (decide (j < i)).
      * rewrite lookup_app_l by lia. done.
      * rewrite !lookup_ge_None_2; [done | lia |]. rewrite length_app. simpl. lia.
Qed.

Lemma init_loop_inv (m : model D) data k n st g st' g' :
  inv n st → init_loop choice m data (seq n k) st g = Ok (st', g') → inv (n + k) st'.
Proof.
  revert n st g. induction k as [|k IH]; intros n st g Hinv Hloop; simpl in Hloop.
  - injection Hloop as <- <-. by rewrite Nat.add_0_r.
  - ok_inv Hloop. replace (n + S k) with (S n + k) by lia.
    eapply IH; [|done]. by eapply init_step_inv.
Qed.

Lemma initialize_assn_inv (m : model D) data g st g' :
  initialize_assn choice m data g = Ok (st, g') → inv (length data) st.
Proof.
  intros H. apply (init_loop_inv _ _ _ 0) in H; [done|].
  split; [done | apply coherent_empty].
Qed.

Lemma gibbs_step_inv (m : model D) data n i st c g st' c' g' :
  inv n st → gibbs_step choice m data i st c g = Ok (st', c', g') → inv n st'.
Proof.
  intros [Hlen Hcoh] Hstep. unfold gibbs_step in Hstep. ok_inv Hstep.
  injection Hstep as <- <- <-.
  destruct (detach_coherent n i st x Hcoh Hlen Hx) as (Hi & Hassn & _ & Hcoh').
  split; simpl.
  - by rewrite length_insert, Hassn.
  - eapply coherent_iff;
      [|eapply (place_coherent (λ j, j < n ∧ j ≠ i)); try done].
    + intros j. simpl. destruct (decide (j = i)) as [->|]; [tauto | tauto].
    + tauto.
    + apply list_lookup_insert_eq. rewrite Hassn. lia.
    + intros j Hj. by rewrite list_lookup_insert_ne.
Qed.

Lemma sweep_loop_inv (m : model D) data n items st c g st' c' g' :
  inv n st → sweep_loop choice m data items st c g = Ok (st', c', g') → inv n st'.
Proof.
  revert st c g. induction items as [|i items IH]; intros st c g Hinv Hloop;
    simpl in Hloop.
  - by injection Hloop as <- <- <-.
  - ok_inv Hloop. eapply IH; [|done]. by eapply gibbs_step_inv.
Qed.

Lemma sweep_inv (m : model D) data n t st g st' m' g' :
  inv n st → sweep choice m data t st g = Ok (st', m', g') → inv n st'.
Proof.
  intros Hinv Hs. unfold sweep in Hs. ok_inv Hs. injection Hs as <- <- <-.
  by eapply sweep_loop_inv.
Qed.

Lemma fit_loop_inv (m : model D) data n ts st g st' m' g' :
  inv n st → fit_loop choice m data ts st g = Ok (st', m', g') → inv n st'.
Proof.
  revert m st g. induction ts as [|t ts IH]; intros m st g Hinv Hloop;
    simpl in Hloop.
  - by injection Hloop as <- <- <-.
  - ok_inv Hloop. eapply IH; [|done]. by eapply sweep_inv.
Qed.

End Invariant.

(** ** Partition and references *)

Lemma inv_is_partition (n : nat) (st : pstate) :
  inv n st → is_partition n (clusters st).
Proof.
  intros [Hlen [Hnd Hlive Hassn Hmem]]. unfold clusters, view.
  split; [|split].
  - intros j1 j2 s1 s2 x H1 H2 Hx1 Hx2.
    apply list_lookup_fmap_Some_1 in H1 as (l1 & -> & H1).
    apply list_lookup_fmap_Some_1 in H2 as (l2 & -> & H2).
    destruct (Hmem l1 x) as [_ Ha1]; [by eapply list_elem_of_lookup_2 | done |].
    destruct (Hmem l2 x) as [_ Ha2]; [by eapply list_elem_of_lookup_2 | done |].
    rewrite Ha1 in Ha2. injection Ha2 as <-.
    by eapply NoDup_lookup.
  - intros x. split.
    + intros Hx. destruct (Hassn x Hx) as (l & _ & Hl & Hxl).
      exists (deref (store st) l). split; [|done].
      apply list_elem_of_fmap. by exists l.
    + intros (s & Hs & Hx). apply list_elem_of_fmap in Hs as (l & -> & Hl).
      by destruct (Hmem l x Hl Hx).
  - intros s Hs. apply list_elem_of_fmap in Hs as (l & -> & Hl).
    by apply Hlive.
Qed.

Lemma inv_refs_live (n : nat) (st : pstate) : inv n st → refs_live st.
Proof.
  intros [Hlen [Hnd Hlive Hassn Hmem]] i l Hi.
  assert (Hlt : i < n) by (rewrite <- Hlen; by eapply lookup_lt_Some).
  destruct (Hassn i Hlt) as (l' & Hl' & Hc & Hx). rewrite Hi in Hl'.
  by injection Hl' as <-.
Qed.

Section Run.
Context {D rng : Type}.
Variable choice : rng → nat → list float → result (nat * rng).

Lemma init_prefix_inv (m : model D) data g i st g' :
  init_prefix choice m data g i = Ok (st, g') → inv i st.
Proof.
  intros H. apply (init_loop_inv _ _ _ _ 0) in H; [done|].
  split; [done | apply coherent_empty].
Qed.

Lemma sweeps_prefix_inv (m : model D) data g T st m' g' :
  sweeps_prefix choice m data g T = Ok (st, m', g') → inv (length data) st.
Proof.
  intros H. unfold sweeps_prefix in H. ok_inv H.
  eapply fit_loop_inv; [|done]. by eapply initialize_assn_inv.
Qed.

Lemma sweep_prefix_inv (m : model D) data g T i st m' c g' :
  sweep_prefix choice m data g T i = Ok (st, m', c, g') → inv (length data) st.
Proof.
  intros H. unfold sweep_prefix in H. ok_inv H. injection H as <- <- <- <-.
  eapply sweep_loop_inv; [|done]. by eapply sweeps_prefix_inv.
Qed.

(** [fit] passes through every point [sweeps_prefix _ T]. *)
Lemma fit_through_sweeps (m : model D) data g (T : nat) :
  (Z.of_nat T ≤ num_iter m)%Z →
  fit choice m data g
  = '(st, m', g') ← sweeps_prefix choice m data g T;
    fit_loop choice m' data (Z.of_nat <$> seq T (Z.to_nat (num_iter m) - T)) st g'.
Proof.
  intros HT. unfold fit, sweeps_prefix.
  destruct (initialize_assn choice m data g) as [[st0 g0]|e]; simpl; [|done].
  unfold py_range. rewrite Nat2Z.id.
  replace (Z.to_nat (num_iter m)) with (T + (Z.to_nat (num_iter m) - T)) at 1 by lia.
  rewrite seq_app, fmap_app, fit_loop_app. simpl.
  destruct (fit_loop choice m data (Z.of_nat <$> seq 0 T) st0 g0) as [[[st1 m1] g1]|e];
    done.
Qed.

(** C2.  When initialization has completed ([T = 0]) and when [T] sweeps have
    completed after it, the clusters of [clustering] are pairwise disjoint,
    their union is exactly the index range of the dataset, and none of them is
    empty. *)
Theorem partition_invariant (m : model D) data g (T : nat) st m' g' :
  sweeps_prefix choice m data g T = Ok (st, m', g') →
  is_partition (length data) (clusters st).
Proof. intros H. eapply inv_is_partition, sweeps_prefix_inv, H. Qed.

(** C5.  At every step boundary of a run (after each pass of the
    initialization loop, after each pass of each sweep), the reference of
    every item assigned so far is an object of [clustering] that contains the
    item.  Inside a pass of a sweep, once item [i] is taken out (the state
    the provider is called on), the same holds of every item but [i]. *)
Theorem reference_coherence (m : model D) data g :
  (∀ i st g', init_prefix choice m data g i = Ok (st, g') →
     length (cluster_assn st) = i ∧ refs_live st)
  ∧ (∀ T i st m' c g', sweep_prefix choice m data g T i = Ok (st, m', c, g') →
     length (cluster_assn st) = length data ∧ refs_live st)
  ∧ (∀ T i st m' c g' st1,
     sweep_prefix choice m data g T i = Ok (st, m', c, g') →
     detach i st = Ok st1 →
     ∀ j l, j ≠ i → cluster_assn st1 !! j = Some l →
       l ∈ clustering st1 ∧ j ∈ deref (store st1) l).
Proof.
  split; [|split].
  - intros i st g' H. apply init_prefix_inv in H. split; [apply H|].
    by eapply inv_refs_live.
  - intros T i st m' c g' H. apply sweep_prefix_inv in H. split; [apply H|].
    by eapply inv_refs_live.
  - intros T i st m' c g' st1 H Hd j l Hj Hl.
    apply sweep_prefix_inv in H as [Hlen Hcoh].
    destruct (detach_coherent _ _ _ _ Hcoh Hlen Hd) as (_ & Ha & _ & Hcoh').
    assert (Hlt : j < length data).
    { rewrite <- Hlen, <- Ha. by eapply lookup_lt_Some. }
    destruct (coh_assn _ _ Hcoh' j (conj Hlt Hj)) as (l' & Hl' & Hc & Hx).
    rewrite Hl in Hl'. by injection Hl' as <-.
Qed.

End Run.

Lemma partition_invariant_witness :
  ∃ r, sweeps_prefix Reference.choice demo_model demo_data 7%Z 1 = Ok r
       ∧ is_partition 3 (clusters r.1.1).
Proof.
  eexists. split; [vm_compute; reflexivity|].
  eapply (partition_invariant Reference.choice demo_model demo_data 7%Z 1).
  vm_compute. reflexivity.
Defined.

Lemma reference_coherence_witness :
  (∃ r, init_prefix Reference.choice demo_model demo_data 7%Z 2 = Ok r
        ∧ length (cluster_assn r.1) = 2 ∧ refs_live r.1)
  ∧ (∃ r, sweep_prefix Reference.choice demo_model demo_data 7%Z 1 2 = Ok r
          ∧ length (cluster_assn r.1.1.1) = 3 ∧ refs_live r.1.1.1)
  ∧ (∃ r st1, sweep_prefix Reference.choice demo_model demo_data 7%Z 1 2 = Ok r
          ∧ detach 2 r.1.1.1 = Ok st1
          ∧ ∀ j l, j ≠ 2 → cluster_assn st1 !! j = Some l →
              l ∈ clustering st1 ∧ j ∈ deref (store st1) l).
Proof.
  split; [|split].
  - eexists. split; [vm_compute; reflexivity|].
    eapply (proj1 (reference_coherence Reference.choice demo_model demo_data 7%Z) 2).
    vm_compute. reflexivity.
  - eexists. split; [vm_compute; reflexivity|].
    eapply (proj1 (proj2 (reference_coherence Reference.choice demo_model demo_data
      7%Z)) 1 2).
    vm_compute. reflexivity.
  - eexists. eexists. split; [vm_compute; reflexivity|].
    split; [vm_compute; reflexivity|].
    eapply (proj2 (proj2 (reference_coherence Reference.choice demo_model demo_data
      7%Z)) 1 2); vm_compute; reflexivity.
Defined.

(** ** The prior vector *)

Lemma crp_existing_Ok (n : Z) (a : float) (sizes : list nat) :
  (float_of_int n + a =? 0)%float = false →
  crp_existing n a sizes
  = Ok ((λ len, (float_of_int (Z.of_nat len) + 0) / (float_of_int n + a))%float
        <$> sizes).
Proof.
  intros Hd. induction sizes as [|len sizes IH]; simpl; [done|].
  unfold py_div at 1. rewrite Hd. simpl. by rewrite IH.
Qed.

Lemma crp_existing_zero (n : Z) (a : float) (sizes : list nat) :
  (float_of_int n + a =? 0)%float = true →
  crp_existing n a sizes = Raise ZeroDivisionError ∨ crp_existing n a sizes = Ok [].
Proof.
  intros Hd. destruct sizes as [|len sizes]; simpl; [by right|].
  unfold py_div. rewrite Hd. by left.
Qed.

Lemma crp_prior_outcome (n : Z) (a : float) (st : pstate) : prior_outcome n a st.
Proof.
  unfold prior_outcome, crp_prior.
  destruct (float_of_int n + a =? 0)%float eqn:Hd.
  - destruct (crp_existing_zero n a (size <$> view (store st) (clustering st)) Hd)
      as [-> | ->]; [done|]. simpl. unfold py_div. by rewrite Hd.
  - rewrite crp_existing_Ok by done. simpl. unfold py_div. rewrite Hd. simpl.
    eexists. split; [done|]. unfold is_crp_prior, clusters, view.
    split; [|split].
    + rewrite length_app, !length_fmap. done.
    + intros j s Hs. rewrite lookup_app_l.
      * rewrite !list_lookup_fmap. rewrite list_lookup_fmap in Hs.
        by rewrite Hs.
      * rewrite !length_fmap. apply lookup_lt_Some in Hs.
        by rewrite length_fmap in Hs.
    + rewrite lookup_app_r; rewrite !length_fmap; [|done].
      by rewrite Nat.sub_diag.
Qed.

(** The sizes of the clusters add up to the number of placed items. *)
Lemma sum_sizes_disjoint (cs : list (gset nat)) :
  (∀ j1 j2 s1 s2 x,
     cs !! j1 = Some s1 → cs !! j2 = Some s2 → x ∈ s1 → x ∈ s2 → j1 = j2) →
  sum_list (size <$> cs) = size (⋃ cs).
Proof.
  induction cs as [|s cs IH]; intros Hdisj.
  - reflexivity.
  - rewrite fmap_cons.
    change (sum_list (size s :: (size <$> cs)))
      with (size s + sum_list (size <$> cs)).
    change (⋃ (s :: cs)) with (s ∪ ⋃ cs). rewrite size_union.
    + rewrite IH; [done|]. intros j1 j2 s1 s2 x H1 H2 Hx1 Hx2.
      assert (S j1 = S j2) by (by eapply (Hdisj (S j1) (S j2))). lia.
    + intros x Hx Hx'. apply elem_of_union_list in Hx' as (s' & Hs' & Hxs').
      apply list_elem_of_lookup in Hs' as [j Hj].
      by specialize (Hdisj 0 (S j) s s' x eq_refl Hj Hx Hxs').
Qed.

Lemma coherent_sum_sizes (P : nat → Prop) (S : gset nat) (st : pstate) :
  coherent P st → (∀ j, P j ↔ j ∈ S) →
  sum_list (size <$> clusters st) = size S.
Proof.
  intros [Hnd Hlive Hassn Hmem] HPS. rewrite sum_sizes_disjoint.
  - f_equal. apply set_eq. intros x. rewrite elem_of_union_list, <- HPS.
    unfold clusters, view. split.
    + intros (s & Hs & Hx). apply list_elem_of_fmap in Hs as (l & -> & Hl).
      by destruct (Hmem l x Hl Hx).
    + intros Hx. destruct (Hassn x Hx) as (l & _ & Hl & Hxl).
      exists (deref (store st) l). split; [|done].
      apply list_elem_of_fmap. by exists l.
  - unfold clusters, view. intros j1 j2 s1 s2 x H1 H2 Hx1 Hx2.
    apply list_lookup_fmap_Some_1 in H1 as (l1 & -> & H1).
    apply list_lookup_fmap_Some_1 in H2 as (l2 & -> & H2).
    destruct (Hmem l1 x) as [_ Ha1]; [by eapply list_elem_of_lookup_2 | done |].
    destruct (Hmem l2 x) as [_ Ha2]; [by eapply list_elem_of_lookup_2 | done |].
    rewrite Ha1 in Ha2. injection Ha2 as <-.
    by eapply NoDup_lookup.
Qed.

Lemma list_remove_total (h : heap) (x : loc) (c : list loc) :
  x ∈ c → ∃ c', list_remove h x c = Ok c'.
Proof.
  induction c as [|y c IH]; intros Hx; simpl.
  - by apply elem_of_nil in Hx.
  - destruct (decide (y = x)) as [->|Hne].
    + rewrite bool_decide_eq_true_2 by done. simpl. eauto.
    + destruct (bool_decide (deref h y = deref h x)); simpl.
      * rewrite bool_decide_eq_false_2 by done. simpl. eauto.
      * rewrite bool_decide_eq_false_2 by done. simpl.
        destruct IH as [c' ->]; [set_solver|]. simpl. eauto.
Qed.

(** On a state that satisfies the invariant, taking a placed item out does
    not raise. *)
Lemma detach_total (n i : nat) (st : pstate) :
  inv n st → i < n → ∃ st', detach i st = Ok st'.
Proof.
  intros [Hlen [Hnd Hlive Hassn Hmem]] Hi.
  destruct (Hassn i Hi) as (l & Hl & Hlc & Hil).
  unfold detach, list_get, set_remove. rewrite Hl. simpl.
  rewrite bool_decide_eq_true_2 by done. simpl.
  destruct (decide _); simpl; [|eauto].
  destruct (list_remove_total (<[l:=deref (store st) l ∖ {[i]}]> (store st)) l
              (clustering st) Hlc) as [c' ->].
  simpl. eauto.
Qed.

Section Prior.
Context {D rng : Type}.
Variable choice : rng → nat → list float → result (nat * rng).


End Prior.


(** ** The Empirical Bayes schedule *)

Lemma detach_store_length (i : nat) (st st' : pstate) :
  detach i st = Ok st' → length (store st') = length (store st).
Proof.
  intros H. unfold detach in H. ok_inv H. injection H as <-. simpl.
  unfold set_remove in Hx0. destruct (bool_decide _); [|done].
  injection Hx0 as <-. by rewrite length_insert.
Qed.

Lemma place_store_length (i cluster : nat) (h h' : heap) (c c' : list loc) (new : bool) :
  place i cluster h c = Ok (h', c', new) →
  length h' = length h + (if new then 1 else 0).
Proof.
  unfold place. destruct (decide _).
  - simpl. intros [= <- <- <-]. rewrite length_app. done.
  - intros H. ok_inv H. injection H as <- <- <-. unfold set_add.
    rewrite length_insert. lia.
Qed.

Section Schedule.
Context {D rng : Type}.
Variable choice : rng → nat → list float → result (nat * rng).

(** A pass of a sweep increments the counter exactly when it creates a
    cluster object. *)
Lemma gibbs_step_count (m : model D) data i st c g st' c' g' :
  gibbs_step choice m data i st c g = Ok (st', c', g') →
  ∃ new : bool,
    length (store st') = length (store st) + (if new then 1 else 0)
    ∧ c' = if new then (c + 1)%float else c.
Proof.
  intros H. unfold gibbs_step in H. ok_inv H. injection H as <- <- <-. simpl.
  exists b. split; [|done].
  apply place_store_length in Hx2. apply detach_store_length in Hx. lia.
Qed.

Lemma sweep_loop_count (m : model D) data items st k g st' c' g' :
  sweep_loop choice m data items st (count_float k) g = Ok (st', c', g') →
  length (store st) ≤ length (store st')
  ∧ c' = count_float (k + (length (store st') - length (store st))).
Proof.
  revert st k g. induction items as [|i items IH]; intros st k g H; simpl in H.
  - injection H as <- <- <-. split; [done|]. f_equal. lia.
  - ok_inv H. apply gibbs_step_count in Hx as (new & Hlen & ->).
    destruct new.
    + change (count_float k + 1)%float with (count_float (S k)) in H.
      apply IH in H as [Hle ->]. split; [lia|]. f_equal. lia.
    + apply IH in H as [Hle ->]. split; [lia|]. f_equal. lia.
Qed.

(** C3.  With [eb_start = 20] and [eb_interval = 5], the sweep of index [t]
    leaves alpha as it was when [0 <= t <= 20], and more generally unless [t]
    is one of 25, 30, 35, ...; at those indices it overwrites alpha with
    the per-sweep counter, which starts at [0.0] and holds one increment per
    cluster created during the sweep. *)
Theorem empirical_bayes_schedule (m : model D) data (t : Z) st g st' m' g' :
  eb_start m = 20%Z → eb_interval m = 5%Z →
  sweep choice m data t st g = Ok (st', m', g') →
  sweep_loop choice m data (seq 0 (length data)) st 0%float g
    = Ok (st', count_float (length (store st') - length (store st)), g')
  ∧ ((0 ≤ t ≤ 20)%Z → m' = m)
  ∧ ((∃ k, 0 ≤ k ∧ t = 25 + 5 * k)%Z →
     m' = set_alpha m (count_float (length (store st') - length (store st))))
  ∧ (¬ (∃ k, 0 ≤ k ∧ t = 25 + 5 * k)%Z → m' = m).
Proof.
  intros Hstart Hint H. unfold sweep in H. ok_inv H.
  injection H as <- <- <-.
  pose proof (sweep_loop_count m data _ st 0 g _ _ _ Hx) as [Hle ->].
  simpl in Hx0 |- *. split; [done|].
  unfold eb_adjust in Hx0. rewrite Hstart, Hint in Hx0.
  destruct (decide (5 = 0)%Z) as [|_]; [done|].
  split; [|split].
  - intros Ht. rewrite (bool_decide_eq_false_2 (20 < t)%Z) in Hx0 by lia.
    rewrite andb_false_r in Hx0. by injection Hx0 as <-.
  - intros (k & Hk & ->).
    rewrite (bool_decide_eq_true_2 (20 < 25 + 5 * k)%Z) in Hx0 by lia.
    rewrite bool_decide_eq_true_2 in Hx0.
    + by injection Hx0 as <-.
    + replace (25 + 5 * k)%Z with ((5 + k) * 5)%Z by lia. apply Z_mod_mult.
  - intros Hno. destruct (bool_decide (t `mod` 5 = 0)%Z) eqn:Hmod;
      [|by injection Hx0 as <-].
    destruct (bool_decide (20 < t)%Z) eqn:Hlt; [|by injection Hx0 as <-].
    apply bool_decide_eq_true in Hmod, Hlt. exfalso. apply Hno.
    exists (t `div` 5 - 5)%Z.
    pose proof (Z_div_mod_eq_full t 5). lia.
Qed.

End Schedule.

Lemma empirical_bayes_schedule_witness :
  ∃ r0 r, sweeps_prefix Reference.choice demo_model demo_data 7%Z 25 = Ok r0
    ∧ sweep Reference.choice r0.1.2 demo_data 25 r0.1.1 r0.2 = Ok r
    ∧ length (store r.1.1) - length (store r0.1.1) = 3
    ∧ r.1.2
      = set_alpha r0.1.2 (count_float (length (store r.1.1) - length (store r0.1.1))).
Proof.
  eexists. eexists. split; [vm_compute; reflexivity|].
  match goal with
  | |- sweep _ ?m _ _ ?st ?g = _ ∧ _ =>
      pose proof (empirical_bayes_schedule Reference.choice m demo_data 25 st g) as EB
  end.
  split; [vm_compute; reflexivity|]. split; [vm_compute; reflexivity|].
  refine (proj1 (proj2 (proj2 (EB _ _ _ eq_refl eq_refl _))) _).
  - vm_compute. reflexivity.
  - exists 0%Z. lia.
Defined.

(** ** Exceptions leave [fit] *)

Section Abort.
Context {D rng : Type}.
Variable choice : rng → nat → list float → result (nat * rng).

(** An exception raised in a pass of the initialization loop is the outcome
    of [fit]. *)
Lemma fit_raises_in_init (m : model D) data g i st g' e :
  i < length data →
  init_prefix choice m data g i = Ok (st, g') →
  init_step choice m data i st g' = Raise e →
  fit choice m data g = Raise e.
Proof.
  intros Hi Hpre Hstep. unfold fit, initialize_assn.
  replace (length data) with (i + S (length data - S i)) by lia.
  rewrite seq_app, init_loop_app. unfold init_prefix in Hpre. rewrite Hpre.
  simpl. by rewrite Hstep.
Qed.

(** An exception raised in a pass of a sweep is the outcome of [fit]. *)
Lemma fit_raises_in_sweep (m : model D) data g T i st m' c g' e :
  (Z.of_nat T < num_iter m)%Z → i < length data →
  sweep_prefix choice m data g T i = Ok (st, m', c, g') →
  gibbs_step choice m' data i st c g' = Raise e →
  fit choice m data g = Raise e.
Proof.
  intros HT Hi Hpre Hstep. rewrite (fit_through_sweeps choice m data g T) by lia.
  unfold sweep_prefix in Hpre. ok_inv Hpre. injection Hpre as <- <- <- <-.
  rewrite Hx. simpl.
  replace (Z.to_nat (num_iter m) - T) with (S (Z.to_nat (num_iter m) - S T)) by lia.
  simpl. unfold sweep.
  replace (length data) with (i + S (length data - S i)) by lia.
  rewrite seq_app, sweep_loop_app, Hx0. simpl. by rewrite Hstep.
Qed.

End Abort.

(** ** The length of the likelihood vector *)

Lemma np_mul_mismatch (a b : list float) :
  length a ≠ length b → length a ≠ 1 → length b ≠ 1 →
  np_mul a b = Raise ValueError.
Proof.
  intros Hab Ha Hb. unfold np_mul. destruct (decide _) as [|_]; [done|].
  destruct a as [|x [|x' a]]; [|done|]; destruct b as [|y [|y' b]]; done.
Qed.

Section Length.
Context {D rng : Type}.
Variable choice : rng → nat → list float → result (nat * rng).

(** With at least one cluster, a likelihood vector that has neither the
    contract's length nor length one makes the product raise (after the
    prior, which raises first on a zero denominator). *)
Lemma combined_mismatch (m : model D) (n : Z) data i st lik :
  likelihood_fn m data i (clusters st) (assignment st) = Ok lik →
  length lik ≠ length (clustering st) + 1 → length lik ≠ 1 →
  length (clustering st) ≠ 0 →
  combined m n data i st
  = Raise (if (float_of_int n + alpha m =? 0)%float
           then ZeroDivisionError else ValueError).
Proof.
  intros Hlik Hlen H1 Hk. unfold combined.
  pose proof (crp_prior_outcome n (alpha m) st) as Hp. unfold prior_outcome in Hp.
  destruct (float_of_int n + alpha m =? 0)%float.
  - by rewrite Hp.
  - destruct Hp as (v & -> & Hv & _). simpl. rewrite Hlik. simpl.
    unfold clusters, view in Hv. rewrite length_fmap in Hv.
    apply np_mul_mismatch; lia.
Qed.

(** C9, as the code has it.  There is no length check and no
    [ContractViolation]: the only guard is numpy's broadcasting in
    [crp_prior * likelihood].  At a step with at least one cluster, a
    likelihood vector whose length is neither [k + 1] nor 1 makes that product
    raise [ValueError], and [fit] ends with that exception
    ([ZeroDivisionError] when the prior's denominator is zero, since the prior
    is computed first). *)
Theorem length_mismatch_aborts (m : model D) data g :
  (∀ i st g' lik, i < length data →
     init_prefix choice m data g i = Ok (st, g') →
     likelihood_fn m data i (clusters st) (assignment st) = Ok lik →
     length lik ≠ length (clustering st) + 1 → length lik ≠ 1 →
     length (clustering st) ≠ 0 →
     fit choice m data g
     = Raise (if (float_of_int (Z.of_nat i) + alpha m =? 0)%float
              then ZeroDivisionError else ValueError))
  ∧ (∀ T i st m' c g' st1 lik, (Z.of_nat T < num_iter m)%Z → i < length data →
     sweep_prefix choice m data g T i = Ok (st, m', c, g') →
     detach i st = Ok st1 →
     likelihood_fn m' data i (clusters st1) (assignment st1) = Ok lik →
     length lik ≠ length (clustering st1) + 1 → length lik ≠ 1 →
     length (clustering st1) ≠ 0 →
     fit choice m data g
     = Raise (if (float_of_int (Z.of_nat (length data) - 1) + alpha m' =? 0)%float
              then ZeroDivisionError else ValueError)).
Proof.
  split.
  - intros i st g' lik Hi Hpre Hlik Hlen H1 Hk.
    eapply fit_raises_in_init; [done | done |].
    unfold init_step. by rewrite (combined_mismatch m _ data i st lik).
  - intros T i st m' c g' st1 lik HT Hi Hpre Hd Hlik Hlen H1 Hk.
    eapply fit_raises_in_sweep; [done | done | done |].
    unfold gibbs_step. rewrite Hd. simpl.
    by rewrite (combined_mismatch m' _ data i st1 lik).
Qed.

End Length.

Lemma length_mismatch_aborts_witness :
  fit Reference.choice early_mismatch_model demo_data 7%Z = Raise ValueError
  ∧ fit Reference.choice late_mismatch_model demo_data 7%Z = Raise ValueError.
Proof.
  split.
  - refine (proj1 (length_mismatch_aborts Reference.choice early_mismatch_model
      demo_data 7%Z) 1 (PState [{[0]}] [0] [0]) _ (replicate 4 1%float)
      _ _ _ _ _ _);
      [vm_compute; lia | vm_compute; reflexivity | vm_compute; reflexivity
      | vm_compute; lia | vm_compute; lia | vm_compute; lia].
  - refine (proj2 (length_mismatch_aborts Reference.choice late_mismatch_model
      demo_data 7%Z) 0 0 (PState [{[0; 1; 2]}] [0] [0; 0; 0]) late_mismatch_model
      0%float 712265938%Z (PState [{[1; 2]}] [0] [0; 0; 0]) (replicate 4 1%float)
      _ _ _ _ _ _ _ _);
      [vm_compute; reflexivity | vm_compute; lia | vm_compute; reflexivity
      | vm_compute; reflexivity | vm_compute; reflexivity
      | vm_compute; lia | vm_compute; lia | vm_compute; lia].
Defined.

(** The claim C9 fails: a provider that always answers with one entry breaks
    the length contract at the second item (one cluster, two slots), the
    product is broadcast, and [fit] returns. *)
Lemma length_contract_counterexample :
  ∃ st g lik r,
    init_prefix Reference.choice one_entry_model [(); ()] 7%Z 1 = Ok (st, g)
    ∧ one_entry_likelihood [(); ()] 1 (clusters st) (assignment st) = Ok lik
    ∧ length lik ≠ length (clustering st) + 1
    ∧ fit Reference.choice one_entry_model [(); ()] 7%Z = Ok r.
Proof.
  do 4 eexists. split; [vm_compute; reflexivity|].
  split; [vm_compute; reflexivity|]. split; [vm_compute; lia|].
  vm_compute. reflexivity.
Defined.

(** ** The empty dataset *)

Section Empty.
Context {D rng : Type}.
Variable choice : rng → nat → list float → result (nat * rng).

Lemma eb_adjust_fires (m : model D) (t : Z) (c : float) :
  eb_interval m ≠ 0%Z →
  eb_adjust m t c = Ok (if eb_fires m t then set_alpha m c else m).
Proof.
  intros Hne. unfold eb_adjust, eb_fires. destruct (decide _); [done|].
  by destruct (_ && _).
Qed.

Lemma fit_loop_empty (m : model D) ts st g :
  eb_interval m ≠ 0%Z →
  fit_loop choice m [] ts st g
  = Ok (st, if existsb (eb_fires m) ts then set_alpha m 0%float else m, g).
Proof.
  revert m. induction ts as [|t ts IH]; intros m Hne; simpl; [done|].
  unfold sweep. simpl. rewrite eb_adjust_fires by done. simpl.
  destruct (eb_fires m t); simpl.
  - rewrite IH by done. by destruct (existsb _ ts).
  - by rewrite IH.
Qed.

(** C10, as the code has it.  On an empty dataset [fit] returns the empty
    clustering and the empty reference list, for every provider and every
    sampler and with the generator state untouched (neither is called).
    Alpha is overwritten by the Empirical Bayes update of every sweep [t] with
    [t mod eb_interval = 0] and [t > eb_start], each time with [0.0]: it ends
    as [0.0] when there is such a sweep and unchanged otherwise. *)
Theorem fit_empty_dataset (m : model D) (g : rng) :
  eb_interval m ≠ 0%Z →
  fit choice m [] g
  = Ok (PState [] [] [],
        (if existsb (eb_fires m) (py_range (num_iter m))
         then set_alpha m 0%float else m),
        g).
Proof. intros Hne. unfold fit. simpl. by apply fit_loop_empty. Qed.

End Empty.

Lemma fit_empty_dataset_witness :
  fit Reference.choice demo_model [] 7%Z
  = Ok (PState [] [] [], set_alpha demo_model 0%float, 7%Z).
Proof.
  apply (fit_empty_dataset Reference.choice demo_model 7%Z). vm_compute. lia.
Defined.

(** The claim C10 fails where it says alpha is never overwritten: with the
    constructor's schedule the update of sweep 25 fires. *)
Lemma fit_empty_overwrites_alpha_counterexample :
  ∃ m', fit Reference.choice demo_model [] 7%Z = Ok (PState [] [] [], m', 7%Z)
    ∧ alpha demo_model = 1%float ∧ alpha m' = 0%float
    ∧ (alpha m' =? alpha demo_model)%float = false.
Proof. eexists. repeat split; vm_compute; reflexivity. Qed.

(** ** IEEE facts *)

Lemma SFcompare_refl (f : spec_float) :
  f ≠ S754_nan → SFcompare f f = Some Eq.
Proof.
  destruct f as [s|s| |s m e]; intros Hf; [by destruct s | by destruct s | done |].
  simpl. rewrite Z.compare_refl, Pos.compare_cont_refl. by destruct s.
Qed.

Lemma is_finite_spec (x : float) : is_finite x = negb (sf_nonfinite (Prim2SF x)).
Proof.
  unfold is_finite, is_nan, is_infinity. rewrite !FloatAxioms.eqb_spec, abs_spec.
  change (Prim2SF infinity) with (S754_infinity false). unfold SFeqb.
  destruct (Prim2SF x) as [s|s| |s m e] eqn:E.
  - by destruct s.
  - by destruct s.
  - done.
  - rewrite SFcompare_refl by done. simpl. done.
Qed.

Lemma eqb_zero_spec (s : float) :
  (s =? 0)%float = true → ∃ b, Prim2SF s = S754_zero b.
Proof.
  rewrite FloatAxioms.eqb_spec. change (Prim2SF 0) with (S754_zero false). unfold SFeqb.
  destruct (Prim2SF s) as [b|b| |b m e]; [eauto | by destruct b | done | by destruct b].
Qed.

(** A NaN or infinite numerator gives a NaN or infinite quotient. *)
Lemma div_nonfinite (x s : float) :
  is_finite x = false → is_finite (x / s) = false.
Proof.
  rewrite !is_finite_spec, div_spec.
  destruct (Prim2SF x) as [b|b| |b m e]; try done;
    destruct (Prim2SF s) as [b'|b'| |b' m' e']; done.
Qed.

(** So does a zero divisor. *)
Lemma div_by_zero (x s : float) :
  (s =? 0)%float = true → is_finite (x / s) = false.
Proof.
  intros [b Hs]%eqb_zero_spec. rewrite is_finite_spec, div_spec, Hs.
  by destruct (Prim2SF x) as [b'|b'| |b' m' e'].
Qed.

Lemma np_div_degenerate (probs : list float) :
  degenerate probs = true →
  probs = []
  ∨ existsb (λ y, negb (is_finite y)) (np_div probs (np_sum probs)) = true.
Proof.
  intros Hd. destruct probs as [|x probs]; [by left|]. right.
  unfold degenerate in Hd. apply orb_true_iff in Hd as [Hz | Hn].
  - simpl. by rewrite div_by_zero.
  - apply existsb_exists in Hn as (y & Hy & Hyn).
    apply existsb_exists. exists (y / np_sum (x :: probs))%float. split.
    + unfold np_div. apply in_map_iff. eauto.
    + apply negb_true_iff in Hyn. by rewrite div_nonfinite.
Qed.

Lemma reference_rejects_degenerate : rejects_degenerate Reference.choice.
Proof.
  intros g a p H. unfold Reference.choice.
  assert (Reference.valid a p = false) as ->; [|done].
  unfold Reference.valid. destruct H as [-> | H]; [done|].
  destruct (forallb is_finite p) eqn:Hf; [|by rewrite !andb_false_r].
  apply existsb_exists in H as (y & Hy & Hyn).
  rewrite forallb_forall in Hf. by rewrite (Hf y Hy) in Hyn.
Qed.

(** ** Construction *)

Lemma zero_alpha_denominator (a : float) :
  (a =? 0)%float = true → (float_of_int 0 + a =? 0)%float = true.
Proof.
  intros [b Ha]%eqb_zero_spec. change (float_of_int 0) with 0%float.
  rewrite FloatAxioms.eqb_spec, add_spec, Ha.
  change (Prim2SF 0) with (S754_zero false). by destruct b.
Qed.

Section Construction.
Context {D rng : Type}.
Variable choice : rng → nat → list float → result (nat * rng).

(** C8, as the code has it.  The constructor validates nothing: for every
    alpha it returns a model that stores alpha unchanged, with [num_iter],
    [eb_start] and [eb_interval] set to the positive constants 100, 20, 5.
    A zero alpha is noticed only inside [fit], by the float division of the
    first prior computation. *)
Theorem init_validates_nothing (a : float) (lik : provider D) :
  ∃ m, __init__ a lik = Ok m
    ∧ alpha m = a ∧ likelihood_fn m = lik
    ∧ num_iter m = 100%Z ∧ eb_start m = 20%Z ∧ eb_interval m = 5%Z
    ∧ ((a =? 0)%float = true → ∀ data g, data ≠ [] →
       fit choice m data g = Raise ZeroDivisionError).
Proof.
  eexists. split; [reflexivity|]. do 5 (split; [reflexivity|]).
  intros Ha data g Hdata.
  apply (fit_raises_in_init choice _ data g 0 (PState [] [] []) g).
  - destruct data; [done | simpl; lia].
  - done.
  - pose proof (crp_prior_outcome 0 a (PState [] [] [])) as Hp.
    unfold prior_outcome in Hp. rewrite (zero_alpha_denominator a Ha) in Hp.
    unfold init_step, combined. change (Z.of_nat 0) with 0%Z. simpl in Hp |- *.
    by rewrite Hp.
Qed.

End Construction.

Lemma init_validates_nothing_witness :
  ∃ m, __init__ 0%float flat_likelihood = Ok m
    ∧ fit Reference.choice m demo_data 7%Z = Raise ZeroDivisionError.
Proof.
  destruct (init_validates_nothing Reference.choice 0%float flat_likelihood)
    as (m & Hm & _ & _ & _ & _ & _ & Hfit).
  exists m. split; [exact Hm|]. by apply Hfit.
Defined.

(** The claim C8 fails: a negative alpha is accepted. *)
Lemma init_negative_alpha_counterexample :
  (-1 <=? 0)%float = true
  ∧ __init__ (-1)%float flat_likelihood = Ok (Model (-1)%float flat_likelihood 100 20 5).
Proof. split; reflexivity. Qed.

(** ** Degenerate vectors reach the sampler *)

Section Degenerate.
Context {D rng : Type}.
Variable choice : rng → nat → list float → result (nat * rng).
Hypothesis choice_rejects : rejects_degenerate choice.

Lemma draw_degenerate (probs : list float) (g : rng) :
  degenerate probs = true → draw choice probs g = Raise ValueError.
Proof.
  intros Hd. unfold draw. apply choice_rejects.
  destruct (np_div_degenerate probs Hd) as [-> | H]; [by left | by right].
Qed.

(** C4, as the code has it.  The code checks nothing and always divides by
    the sum.  When the combined vector sums to zero or has a NaN or infinite
    entry, the quotient has a NaN or infinite entry (or is empty), the
    sampler rejects it, and [fit] ends at that step with the sampler's
    exception. *)
Theorem degenerate_vector_aborts (m : model D) data g :
  (∀ i st g' probs, i < length data →
     init_prefix choice m data g i = Ok (st, g') →
     combined m (Z.of_nat i) data i st = Ok probs →
     degenerate probs = true →
     fit choice m data g = Raise ValueError)
  ∧ (∀ T i st m' c g' st1 probs, (Z.of_nat T < num_iter m)%Z → i < length data →
     sweep_prefix choice m data g T i = Ok (st, m', c, g') →
     detach i st = Ok st1 →
     combined m' (Z.of_nat (length data) - 1) data i st1 = Ok probs →
     degenerate probs = true →
     fit choice m data g = Raise ValueError).
Proof.
  split.
  - intros i st g' probs Hi Hpre Hc Hd.
    eapply fit_raises_in_init; [done | done |].
    unfold init_step. rewrite Hc. simpl. by rewrite draw_degenerate.
  - intros T i st m' c g' st1 probs HT Hi Hpre Hdet Hc Hd.
    eapply fit_raises_in_sweep; [done | done | done |].
    unfold gibbs_step. rewrite Hdet. simpl. rewrite Hc. simpl.
    by rewrite draw_degenerate.
Qed.

End Degenerate.

Lemma degenerate_vector_aborts_witness :
  fit Reference.choice early_zero_model demo_data 7%Z = Raise ValueError
  ∧ fit Reference.choice late_zero_model demo_data 7%Z = Raise ValueError.
Proof.
  split.
  - refine (proj1 (degenerate_vector_aborts Reference.choice
      reference_rejects_degenerate early_zero_model demo_data 7%Z)
      1 (PState [{[0]}] [0] [0]) _ [0%float; 0%float] _ _ _ _);
      [vm_compute; lia | vm_compute; reflexivity | vm_compute; reflexivity
      | vm_compute; reflexivity].
  - refine (proj2 (degenerate_vector_aborts Reference.choice
      reference_rejects_degenerate late_zero_model demo_data 7%Z)
      0 0 (PState [{[0; 1; 2]}] [0] [0; 0; 0]) late_zero_model
      0%float 712265938%Z (PState [{[1; 2]}] [0] [0; 0; 0]) [0%float; 0%float]
      _ _ _ _ _ _);
      [vm_compute; reflexivity | vm_compute; lia | vm_compute; reflexivity
      | vm_compute; reflexivity | vm_compute; reflexivity
      | vm_compute; reflexivity].
Defined.

(** The claim C4 fails: a combined vector with negative entries is divided
    by its negative sum, the sampler receives a valid distribution, and [fit]
    returns. *)
Lemma negative_vector_counterexample :
  ∃ probs r,
    combined negative_model 0 [(); ()] 0 (PState [] [] []) = Ok probs
    ∧ existsb (λ x, x <? 0)%float probs = true
    ∧ fit Reference.choice negative_model [(); ()] 7%Z = Ok r.
Proof.
  do 2 eexists. split; [vm_compute; reflexivity|].
  split; vm_compute; reflexivity.
Qed.

(** ** Exact float operations *)

Lemma finite_nonzero_spec (x : float) :
  is_finite x = true → (x =? 0)%float = false →
  ∃ s m e, Prim2SF x = S754_finite s m e ∧ bounded prec emax m e = true.
Proof.
  rewrite is_finite_spec, FloatAxioms.eqb_spec.
  change (Prim2SF 0) with (S754_zero false). unfold SFeqb.
  pose proof (Prim2SF_valid x) as Hv.
  destruct (Prim2SF x) as [b|b| |b m e]; try done. eauto.
Qed.

(** [0.0 + x] is [x]. *)
Lemma add_zero_l (x : float) :
  is_finite x = true → (x =? 0)%float = false → (0 + x)%float = x.
Proof.
  intros Hf Hz. destruct (finite_nonzero_spec x Hf Hz) as (s & m & e & Hx & _).
  apply Prim2SF_inj. rewrite add_spec, Hx.
  change (Prim2SF 0) with (S754_zero false). done.
Qed.

(** [x / x] is [1.0]. *)
Lemma div_self (x : float) :
  is_finite x = true → (x =? 0)%float = false → (x / x)%float = 1%float.
Proof.
  intros Hf Hz. destruct (finite_nonzero_spec x Hf Hz) as (s & m & e & Hx & _).
  apply Prim2SF_inj. rewrite div_spec, Hx.
  change (Prim2SF 1) with (S754_finite false 4503599627370496 (-52)).
  unfold SF64div, SFdiv, SFdiv_core_binary.
  rewrite Z.sub_diag, Z.sub_diag.
  change (Z.min (fexp prec emax 0) 0) with (-53)%Z.
  change (0 - -53)%Z with 53%Z. cbv iota.
  assert (Z.div_eucl (Z.shiftl (Z.pos m) 53) (Z.pos m) = (9007199254740992, 0)%Z)
    as ->.
  { rewrite Z.shiftl_mul_pow2 by done.
    pose proof (Z_div_mod (Z.pos m * 2 ^ 53) (Z.pos m)) as Hdm.
    destruct (Z.div_eucl (Z.pos m * 2 ^ 53) (Z.pos m)) as [q r].
    destruct Hdm as [Hq Hr]; [lia|].
    assert (q = 2 ^ 53)%Z by nia. subst q.
    f_equal. lia. }
  assert (new_location (Z.pos m) 0 = loc_Exact) as ->.
  { unfold new_location. by destruct (Z.even (Z.pos m)). }
  by destruct s.
Qed.

(** [1.0 * x] is [x]. *)
Lemma mul_one_l (x : float) :
  is_finite x = true → (x =? 0)%float = false → (1 * x)%float = x.
Proof.
  intros Hf Hz. destruct (finite_nonzero_spec x Hf Hz) as (s & m & e & Hx & Hb).
  apply Prim2SF_inj. rewrite mul_spec, Hx.
  change (Prim2SF 1) with (S754_finite false 4503599627370496 (-52)).
  unfold bounded, canonical_mantissa in Hb. apply andb_true_iff in Hb as [Hc He].
  apply Z.eqb_eq in Hc.
  unfold SF64mul, SFmul. cbn [xorb].
  unfold binary_round_aux, shr_fexp.
  let t := eval cbv beta iota fix delta [Pos.mul] in (4503599627370496 * m)%positive in
  change (4503599627370496 * m)%positive with t.
  cbn [Zdigits2 digits2_pos].
  match goal with
  | |- context [fexp prec emax (Z.pos ?d + (-52 + e))] =>
      replace (Z.pos d + (-52 + e))%Z with (Z.pos (digits2_pos m) + e)%Z by lia
  end.
  rewrite Hc. replace (e - (-52 + e))%Z with 52%Z by lia.
  match goal with
  | |- context [shr ?r (-52 + e)%Z 52%Z] =>
      assert (shr r (-52 + e)%Z 52%Z
              = ({| shr_m := Z.pos m; shr_r := false; shr_s := false |}, e)) as ->
  end.
  { unfold shr. apply (f_equal2 pair); [reflexivity | lia]. }
  cbn [shr_m loc_of_shr_record round_nearest_even Zdigits2 shr_record_of_loc].
  rewrite Hc, Z.sub_diag. cbn [shr shr_m]. by rewrite He.
Qed.

(** ** The one-item dataset *)

Lemma nonzero_finite_spec (x : float) :
  nonzero_finite x = true ↔ is_finite x = true ∧ (x =? 0)%float = false.
Proof. unfold nonzero_finite. rewrite andb_true_iff, negb_true_iff. done. Qed.

(** With one item placed there is exactly one cluster, the set [{0}], and
    the item's reference is that cluster. *)
Lemma inv_one_shape (st : pstate) :
  inv 1 st →
  ∃ l, clustering st = [l] ∧ cluster_assn st = [l]
       ∧ l < length (store st) ∧ deref (store st) l = {[0]}.
Proof.
  intros [Hlen [Hnd Hlive Hassn Hmem]].
  destruct (Hassn 0) as (l & Hl & Hlc & H0); [lia|]. exists l.
  assert (Hall : ∀ l', l' ∈ clustering st → l' = l).
  { intros l' Hl'. destruct (Hlive l' Hl') as [_ Hne].
    apply set_choose_L in Hne as [j Hj].
    destruct (Hmem l' j Hl' Hj) as [Hj1 Hjl].
    assert (j = 0) as -> by lia. rewrite Hl in Hjl. by injection Hjl. }
  split; [|split; [|split]].
  - destruct (clustering st) as [|l1 [|l2 c]].
    + by apply elem_of_nil in Hlc.
    + f_equal. apply Hall. set_solver.
    + exfalso. apply NoDup_cons in Hnd as [Hnot _]. apply Hnot.
      rewrite (Hall l1), (Hall l2); set_solver.
  - destruct (cluster_assn st) as [|l1 [|l2 c]]; simpl in *; [done | | done].
    by injection Hl as ->.
  - by apply Hlive.
  - apply set_eq. intros j. rewrite elem_of_singleton. split.
    + intros Hj. destruct (Hmem l j Hlc Hj) as [Hj1 _]. lia.
    + by intros ->.
Qed.

Lemma inv_one_output (st : pstate) :
  inv 1 st → clusters st = [{[0]}] ∧ assignment st = [{[0]}].
Proof.
  intros (l & Hc & Ha & _ & Hd)%inv_one_shape.
  unfold clusters, assignment, view. rewrite Hc, Ha. simpl. by rewrite Hd.
Qed.

Lemma unit_prior (a : float) (h : heap) :
  nonzero_finite a = true → crp_prior 0 a h [] = Ok [1%float].
Proof.
  intros [Hf Hz]%nonzero_finite_spec. unfold crp_prior. simpl.
  change (float_of_int 0) with 0%float. unfold py_div.
  rewrite add_zero_l, Hz by done. simpl. by rewrite div_self.
Qed.

Section OneItem.
Context {D rng : Type}.
Variable choice : rng → nat → list float → result (nat * rng).
Hypothesis choice_certain : certain_draw choice.

Lemma combined_one_slot (m : model D) data (st : pstate) :
  nonzero_finite (alpha m) = true → one_slot_provider m data →
  clustering st = [] →
  ∃ l, combined m 0 data 0 st = Ok [l] ∧ nonzero_finite l = true.
Proof.
  intros Ha Hp Hc. unfold combined. rewrite Hc, unit_prior by done. simpl.
  unfold clusters, view. rewrite Hc. simpl.
  destruct (Hp (assignment st)) as (l & -> & Hl). simpl. exists l.
  apply nonzero_finite_spec in Hl as Hl'. destruct Hl' as [Hf Hz].
  unfold np_mul. simpl. by rewrite mul_one_l.
Qed.

Lemma draw_one_slot (l : float) (g : rng) :
  nonzero_finite l = true → ∃ g', draw choice [l] g = Ok (0, g').
Proof.
  intros [Hf Hz]%nonzero_finite_spec. unfold draw, np_sum, np_div. simpl.
  rewrite !(add_zero_l l), div_self by done. apply choice_certain.
Qed.

Lemma init_step_one_item (m : model D) data (g : rng) :
  nonzero_finite (alpha m) = true → one_slot_provider m data →
  ∃ g', init_step choice m data 0 (PState [] [] []) g
        = Ok (PState [{[0]}] [0] [0], g').
Proof.
  intros Ha Hp. unfold init_step.
  destruct (combined_one_slot m data (PState [] [] []) Ha Hp eq_refl)
    as (l & Hc & Hl).
  change (Z.of_nat 0) with 0%Z. rewrite Hc. simpl.
  destruct (draw_one_slot l g Hl) as [g' ->]. simpl. eauto.
Qed.

Lemma gibbs_step_one_item (m : model D) (d : D) st c g :
  nonzero_finite (alpha m) = true → one_slot_provider m [d] → inv 1 st →
  ∃ st' g', gibbs_step choice m [d] 0 st c g = Ok (st', (c + 1)%float, g').
Proof.
  intros Ha Hp (l & Hc & Has & Hlt & Hd)%inv_one_shape. unfold gibbs_step.
  assert (Hdet : detach 0 st
    = Ok (PState (<[l := ∅]> (store st)) [] [l])).
  { unfold detach. rewrite Has. simpl. unfold set_remove. rewrite Hd.
    rewrite bool_decide_eq_true_2 by set_solver. simpl.
    rewrite deref_insert_eq by done.
    replace ({[0]} ∖ {[0]} : gset nat) with (∅ : gset nat) by set_solver.
    simpl. rewrite Hc. simpl. rewrite bool_decide_eq_true_2 by done. done. }
  rewrite Hdet. change (Z.of_nat (length [d]) - 1)%Z with 0%Z.
  destruct (combined_one_slot m [d] (PState (<[l := ∅]> (store st)) [] [l])
              Ha Hp eq_refl) as (l0 & Hcomb & Hl0).
  cbn [mbind result_bind]. rewrite Hcomb. cbn [mbind result_bind].
  destruct (draw_one_slot l0 g Hl0) as [g' ->]. simpl. eauto.
Qed.

End OneItem.

Section OneItemRun.
Context {D rng : Type}.
Variable choice : rng → nat → list float → result (nat * rng).

Lemma sweep_one_item (m : model D) (d : D) (t : Z) st g :
  certain_draw choice → one_item_ready m [d] → inv 1 st →
  ∃ st' m' g', sweep choice m [d] t st g = Ok (st', m', g')
               ∧ inv 1 st' ∧ one_item_ready m' [d].
Proof.
  intros Hch (Ha & Hp & He) Hinv.
  destruct (gibbs_step_one_item choice Hch m d st 0%float g Ha Hp Hinv)
    as (st' & g' & Hstep).
  assert (Hs : sweep choice m [d] t st g
    = Ok (st', (if eb_fires m t then set_alpha m (0 + 1)%float else m), g')).
  { unfold sweep. simpl. rewrite Hstep. simpl. by rewrite eb_adjust_fires. }
  eexists _, _, _. split; [exact Hs|]. split.
  - by eapply sweep_inv.
  - destruct (eb_fires m t); [|done]. by split.
Qed.

Lemma fit_loop_one_item (m : model D) (d : D) (ts : list Z) st g :
  certain_draw choice → one_item_ready m [d] → inv 1 st →
  ∃ st' m' g', fit_loop choice m [d] ts st g = Ok (st', m', g').
Proof.
  intros Hch. revert m st g. induction ts as [|t ts IH]; intros m st g Hm Hinv.
  - simpl. eauto.
  - destruct (sweep_one_item m d t st g Hch Hm Hinv)
      as (st' & m' & g' & Hs & Hinv' & Hm').
    simpl. rewrite Hs. simpl. by apply IH.
Qed.

(** C7, as the code has it.  On a one-item dataset, whatever alpha is,
    whenever [fit] returns, [clustering] holds exactly one cluster, the set
    [{0}], and the item's reference is that cluster.  It does return when
    alpha is finite and not zero, the interval is not zero, the provider
    answers the one-slot calls with one non-zero finite likelihood and the
    sampler draws slot 0 from [[1.0]]. *)
Theorem single_item_dataset (m : model D) (d : D) (g : rng) :
  (∀ st m' g', fit choice m [d] g = Ok (st, m', g') →
     clusters st = [{[0]}] ∧ assignment st = [{[0]}])
  ∧ (certain_draw choice → one_item_ready m [d] →
     ∃ st m' g', fit choice m [d] g = Ok (st, m', g')).
Proof.
  split.
  - intros st m' g' H. unfold fit in H. ok_inv H.
    apply inv_one_output. eapply fit_loop_inv; [|done].
    by apply initialize_assn_inv in Hx.
  - intros Hch (Ha & Hp & He). unfold fit, initialize_assn. simpl.
    destruct (init_step_one_item choice Hch m [d] g Ha Hp) as [g' Hi].
    rewrite Hi. simpl. apply fit_loop_one_item; [done | done |].
    apply (init_loop_inv choice m [d] 1 0 (PState [] [] []) g _ g').
    + split; [done | apply coherent_empty].
    + simpl. by rewrite Hi.
Qed.

End OneItemRun.

Lemma reference_certain_draw : certain_draw Reference.choice.
Proof.
  intros g. unfold Reference.choice.
  change (Reference.valid 1 [1%float]) with true. cbv iota.
  eexists. f_equal. f_equal. apply Nat.min_0_r.
Qed.

Lemma single_item_dataset_witness :
  ∃ st m' g',
    fit Reference.choice flat_model [()] 7%Z
    = Ok (st, m', g')
    ∧ clusters st = [{[0]}] ∧ assignment st = [{[0]}].
Proof.
  destruct (proj2 (single_item_dataset Reference.choice
    flat_model () 7%Z)) as (st & m' & g' & H).
  - apply reference_certain_draw.
  - split; [reflexivity|]. split; [|vm_compute; lia].
    intros ca. eexists. split; reflexivity.
  - exists st, m', g'. split; [exact H|].
    exact (proj1 (single_item_dataset Reference.choice
      flat_model () 7%Z) st m' g' H).
Defined.

(** The claim C7 fails for alpha = 0: the first prior computation divides
    [0.0] by [0.0 + 0.0] and [fit] raises. *)
Lemma single_item_zero_alpha_counterexample :
  fit Reference.choice (Model 0%float flat_likelihood 100 20 5) [()] 7%Z
  = Raise ZeroDivisionError.
Proof. vm_compute. reflexivity. Qed.

(** ** Determinism *)

Section Determinism.
Context {D rng : Type}.
Variables choice1 choice2 : rng → nat → list float → result (nat * rng).
Hypothesis same_choice : ∀ g a p, choice1 g a p = choice2 g a p.










End Determinism.


(** * Further properties *)

(** ** A pass, on the sets themselves *)

Lemma filter_all {A} (P : A → Prop) `{!∀ x, Decision (P x)} (l : list A) :
  (∀ x, x ∈ l → P x) → filter P l = l.
Proof.
  induction l as [|x l IH]; intros Hall; [done|].
  rewrite filter_cons_True by (apply Hall; set_solver).
  rewrite IH; [done|]. intros y Hy. apply Hall. set_solver.
Qed.

Lemma filter_fmap_members {A B} (f : A → B) (P : B → Prop) (Q : A → Prop)
    `{!∀ x, Decision (P x), !∀ x, Decision (Q x)} (l : list A) :
  (∀ x, x ∈ l → (P (f x) ↔ Q x)) → filter P (f <$> l) = f <$> filter Q l.
Proof.
  induction l as [|x l IH]; intros Hall; [done|]. rewrite fmap_cons.
  assert (Hl : ∀ y, y ∈ l → (P (f y) ↔ Q y))
    by (intros y Hy; apply Hall; set_solver).
  destruct (decide (Q x)) as [Hq | Hq].
  - rewrite (filter_cons_True Q) by done.
    rewrite (filter_cons_True P) by (apply Hall; [set_solver | done]).
    by rewrite fmap_cons, IH.
  - rewrite (filter_cons_False Q) by done.
    rewrite (filter_cons_False P) by (rewrite Hall; [done | set_solver]).
    by rewrite IH.
Qed.

(** [lst.remove] drops exactly the object asked for, and keeps the order of
    the rest, when no other entry compares equal to it. *)
Lemma list_remove_filter (h : heap) (x : loc) (c c' : list loc) :
  NoDup c → x ∈ c →
  (∀ y, y ∈ c → y ≠ x → deref h y ≠ deref h x) →
  list_remove h x c = Ok c' → c' = filter (λ y, y ≠ x) c.
Proof.
  revert c'. induction c as [|y c IH]; intros c' Hnd Hx Hne Hrm; simpl in Hrm.
  - by apply elem_of_nil in Hx.
  - apply NoDup_cons in Hnd as [Hy Hnd].
    destruct (decide (y = x)) as [->|Hyx].
    + rewrite bool_decide_eq_true_2 in Hrm by done. simpl in Hrm.
      injection Hrm as <-. rewrite filter_cons_False by (intros H; by apply H).
      symmetry. apply filter_all. intros z Hz ->. done.
    + rewrite bool_decide_eq_false_2 in Hrm by done.
      rewrite bool_decide_eq_false_2 in Hrm by (apply Hne; [set_solver | done]).
      simpl in Hrm. ok_inv Hrm. injection Hrm as <-.
      rewrite filter_cons_True by done. f_equal.
      apply IH; [done | set_solver | | done].
      intros z Hz. apply Hne. set_solver.
Qed.

(** Taking an item out, seen on the sets. *)
Lemma detach_clusters (n i : nat) (st st1 : pstate) :
  inv n st → detach i st = Ok st1 → clusters st1 = take_out i (clusters st).
Proof.
  intros [Hlen [Hnd Hlive Hassn Hmem]] Hd. unfold detach in Hd. ok_inv Hd.
  rename x into l, x0 into h, x1 into c, Hx into Hl, Hx0 into Hh, Hx1 into Hc.
  injection Hd as <-.
  assert (Hi : i < n) by (rewrite <- Hlen; by eapply lookup_lt_Some).
  destruct (Hassn i Hi) as (l' & Hl' & Hlc & Hil). rewrite Hl in Hl'.
  injection Hl' as <-. destruct (Hlive l Hlc) as [Hlt Hlne].
  unfold set_remove in Hh. rewrite bool_decide_eq_true_2 in Hh by done.
  injection Hh as <-. rewrite deref_insert_eq in Hc by done.
  set (h' := <[l := deref (store st) l ∖ {[i]}]> (store st)) in *.
  assert (Hderef : ∀ l', l' ∈ clustering st →
    deref h' l' = deref (store st) l' ∖ {[i]}).
  { intros l' Hl'. unfold h'. destruct (decide (l' = l)) as [->|Hne].
    - by rewrite deref_insert_eq.
    - rewrite deref_insert_ne by done.
      assert (i ∉ deref (store st) l'); [|set_solver].
      intros Hin. destruct (Hmem l' i Hl' Hin) as [_ Hil'].
      rewrite Hl in Hil'. by injection Hil'. }
  assert (Hview : deref h' <$> clustering st
    = (λ s, s ∖ {[i]}) <$> (deref (store st) <$> clustering st)).
  { rewrite <- list_fmap_compose. apply list_fmap_ext. intros k l' Hk. simpl.
    apply Hderef. by eapply list_elem_of_lookup_2. }
  assert (Hothers : ∀ l', l' ∈ clustering st → l' ≠ l → deref h' l' ≠ ∅).
  { intros l' Hl' Hne. unfold h'. rewrite deref_insert_ne by done. by apply Hlive. }
  unfold clusters, take_out, view. simpl. rewrite <- Hview.
  destruct (decide (size (deref (store st) l ∖ {[i]}) = 0)) as [Hz | Hnz].
  - apply size_empty_iff, leibniz_equiv in Hz.
    assert (Hl' : deref h' l = ∅) by (unfold h'; by rewrite deref_insert_eq).
    apply list_remove_filter in Hc; [ | done | done | ].
    2:{ intros y Hy Hyl. rewrite Hl'. by apply Hothers. }
    subst c. symmetry. apply filter_fmap_members. intros y Hy. split.
    + intros Hne ->. done.
    + intros Hne. by apply Hothers.
  - injection Hc as <-. symmetry. apply filter_all.
    intros s Hs. apply list_elem_of_fmap in Hs as (l' & -> & Hl').
    destruct (decide (l' = l)) as [->|Hne]; [|by apply Hothers].
    unfold h'. rewrite deref_insert_eq by done. intros Hempty.
    rewrite Hempty in Hnz. by rewrite size_empty in Hnz.
Qed.

(** Placing an item, seen on the sets. *)
Lemma place_clusters (P : nat → Prop) i cluster st h c new :
  coherent P st →
  place i cluster (store st) (clustering st) = Ok (h, c, new) →
  view h c = put_in i cluster (clusters st)
  ∧ new = bool_decide (cluster = length (clustering st)).
Proof.
  intros [Hnd Hlive Hassn Hmem] Hplace. unfold place in Hplace.
  unfold put_in, clusters, view. rewrite length_fmap.
  destruct (decide (cluster = length (clustering st))) as [->|Hne].
  - simpl in Hplace. injection Hplace as <- <- <-.
    rewrite bool_decide_eq_true_2 by done. split; [|done].
    rewrite fmap_app. simpl. rewrite deref_app_new. f_equal.
    apply list_fmap_ext. intros k l Hk. apply deref_app_l.
    apply Hlive. by eapply list_elem_of_lookup_2.
  - ok_inv Hplace. injection Hplace as <- <- <-.
    rewrite bool_decide_eq_false_2 by done. split; [|done].
    rename x into l. assert (Hlc : l ∈ clustering st) by (by eapply list_elem_of_lookup_2).
    destruct (Hlive l Hlc) as [Hlt _].
    apply list_eq. intros k. rewrite list_lookup_alter.
    destruct (decide (cluster = k)) as [<-|Hk]; rewrite !list_lookup_fmap.
    + rewrite Hx. simpl. unfold set_add. by rewrite deref_insert_eq.
    + destruct (clustering st !! k) as [l'|] eqn:Hl'; simpl; [|done].
      f_equal. unfold set_add. apply deref_insert_ne. intros ->.
      apply Hk. by eapply NoDup_lookup.
Qed.

Lemma same_cluster_refs (n : nat) (st : pstate) (j k : nat) :
  inv n st →
  same_cluster (clusters st) j k
  ↔ ∃ l, cluster_assn st !! j = Some l ∧ cluster_assn st !! k = Some l.
Proof.
  intros [Hlen [Hnd Hlive Hassn Hmem]]. unfold same_cluster, clusters, view. split.
  - intros (s & Hs & Hj & Hk). apply list_elem_of_fmap in Hs as (l & -> & Hl).
    exists l. split; [by apply (Hmem l j) | by apply (Hmem l k)].
  - intros (l & Hj & Hk).
    assert (Hjn : j < n) by (rewrite <- Hlen; by eapply lookup_lt_Some).
    assert (Hkn : k < n) by (rewrite <- Hlen; by eapply lookup_lt_Some).
    destruct (Hassn j Hjn) as (lj & Hlj & Hcj & Hxj).
    destruct (Hassn k Hkn) as (lk & Hlk & Hck & Hxk).
    rewrite Hj in Hlj. injection Hlj as <-. rewrite Hk in Hlk. injection Hlk as <-.
    exists (deref (store st) l). split; [|done].
    apply list_elem_of_fmap. by exists l.
Qed.

Lemma length_le_sum_sizes (cs : list (gset nat)) :
  (∀ s, s ∈ cs → s ≠ ∅) → length cs ≤ sum_list (size <$> cs).
Proof.
  induction cs as [|s cs IH]; intros Hne; [done|]. rewrite fmap_cons.
  change (sum_list (size s :: (size <$> cs)))
    with (size s + sum_list (size <$> cs)).
  assert (size s ≠ 0).
  { intros Hz. apply size_empty_iff, leibniz_equiv in Hz.
    apply (Hne s); [set_solver | done]. }
  assert (length cs ≤ sum_list (size <$> cs)).
  { apply IH. intros s' Hs'. apply Hne. set_solver. }
  simpl. lia.
Qed.

Section Passes.
Context {D rng : Type}.
Variable choice : rng → nat → list float → result (nat * rng).

Lemma gibbs_step_refs (m : model D) data i st c g st' c' g' :
  gibbs_step choice m data i st c g = Ok (st', c', g') →
  ∀ j, j ≠ i → cluster_assn st' !! j = cluster_assn st !! j.
Proof.
  intros H j Hj. unfold gibbs_step in H. ok_inv H. injection H as <- <- <-.
  simpl. rewrite list_lookup_insert_ne by done.
  unfold detach in Hx. ok_inv Hx. by injection Hx as <-.
Qed.

(** X1.  A pass of a sweep for item [i] leaves the reference of every other
    item as it was (the same object), and two other items are in one cluster
    after the pass exactly when they were before it. *)
Theorem pass_moves_one_item (m : model D) data g T i st m' c g' st' c' g'' :
  sweep_prefix choice m data g T i = Ok (st, m', c, g') →
  gibbs_step choice m' data i st c g' = Ok (st', c', g'') →
  ∀ j k, j ≠ i → k ≠ i →
    cluster_assn st' !! j = cluster_assn st !! j
    ∧ (same_cluster (clusters st') j k ↔ same_cluster (clusters st) j k).
Proof.
  intros Hpre Hstep j k Hj Hk.
  pose proof (gibbs_step_refs m' data i st c g' st' c' g'' Hstep) as Hrefs.
  split; [by apply Hrefs|].
  apply sweep_prefix_inv in Hpre as Hinv.
  pose proof (gibbs_step_inv choice m' data _ i st c g' st' c' g'' Hinv Hstep) as Hinv'.
  rewrite (same_cluster_refs _ st' j k Hinv'), (same_cluster_refs _ st j k Hinv).
  by rewrite !Hrefs.
Qed.

(** X2.  A pass of a sweep, on the sets themselves: item [i] is taken out of
    its cluster (which leaves the list if that empties it), the sampler draws
    a slot from the normalised product computed on what is left, and the
    item goes into the cluster at that slot, or into a new last cluster when
    the slot is the one after the last; the counter moves exactly in that
    case.  A pass of initialization is the same without the taking out. *)
Theorem pass_on_clusters (m : model D) data g :
  (∀ i st g' st' g'',
     init_prefix choice m data g i = Ok (st, g') →
     init_step choice m data i st g' = Ok (st', g'') →
     ∃ probs slot,
       combined m (Z.of_nat i) data i st = Ok probs
       ∧ draw choice probs g' = Ok (slot, g'')
       ∧ slot ≤ length (clusters st)
       ∧ clusters st' = put_in i slot (clusters st))
  ∧ (∀ T i st m' c g' st' c' g'',
     sweep_prefix choice m data g T i = Ok (st, m', c, g') →
     gibbs_step choice m' data i st c g' = Ok (st', c', g'') →
     ∃ st1 probs slot,
       detach i st = Ok st1
       ∧ clusters st1 = take_out i (clusters st)
       ∧ combined m' (Z.of_nat (length data) - 1) data i st1 = Ok probs
       ∧ draw choice probs g' = Ok (slot, g'')
       ∧ slot ≤ length (clusters st1)
       ∧ clusters st' = put_in i slot (clusters st1)
       ∧ c' = if decide (slot = length (clusters st1)) then (c + 1)%float else c).
Proof.
  split.
  - intros i st g' st' g'' Hpre Hstep.
    apply init_prefix_inv in Hpre as [Hlen Hcoh].
    unfold init_step in Hstep. ok_inv Hstep. injection Hstep as <- <-.
    rename x into probs, n into slot.
    exists probs, slot. split; [done|]. split; [done|].
    destruct (place_clusters _ _ _ _ _ _ _ Hcoh Hx1) as [Hview _].
    split; [|done].
    unfold clusters, view. rewrite length_fmap. unfold place in Hx1.
    destruct (decide (slot = length (clustering st))) as [->|Hne]; [done|].
    ok_inv Hx1.
    match goal with
    | H : clustering st !! slot = Some _ |- _ => apply lookup_lt_Some in H; lia
    end.
  - intros T i st m' c g' st' c' g'' Hpre Hstep.
    apply sweep_prefix_inv in Hpre as Hinv. destruct Hinv as [Hlen Hcoh].
    unfold gibbs_step in Hstep. ok_inv Hstep. injection Hstep as <- <- <-.
    rename x into st1, x0 into probs, n into slot.
    exists st1, probs, slot. split; [done|].
    split; [by eapply detach_clusters|]. split; [done|]. split; [done|].
    destruct (detach_coherent _ _ _ _ Hcoh Hlen Hx) as (_ & _ & _ & Hcoh1).
    destruct (place_clusters _ _ _ _ _ _ _ Hcoh1 Hx2) as [Hview ->].
    assert (Hk : length (clusters st1) = length (clustering st1)).
    { unfold clusters, view. by rewrite length_fmap. }
    rewrite Hk. split; [|split; [done|]].
    + unfold place in Hx2.
      destruct (decide (slot = length (clustering st1))) as [->|Hne]; [done|].
      ok_inv Hx2.
      match goal with
      | H : clustering st1 !! slot = Some _ |- _ => apply lookup_lt_Some in H; lia
      end.
    + destruct (decide (slot = length (clustering st1))).
      * by rewrite bool_decide_eq_true_2.
      * by rewrite bool_decide_eq_false_2.
Qed.

(** X3.  What the provider is called on.  A pass consults the provider
    through one call only, [likelihood_fn(data, i, clustering, cluster_assn)]
    on the lists as they are then: a provider that answers this call alike
    gives the same pass.  In pass [i] of initialization the clusters are
    non-empty sets of earlier items and the reference list has [i] entries.
    In a pass of a sweep the clusters are non-empty sets of items other
    than [i], the reference list has [N] entries, each other item's entry is
    the cluster that holds it, and the entry of [i] itself is the set it was
    taken out of, now without [i]. *)
Theorem provider_view (m : model D) data g :
  (∀ i st g', init_prefix choice m data g i = Ok (st, g') →
     (∀ lik', lik' data i (clusters st) (assignment st)
              = likelihood_fn m data i (clusters st) (assignment st) →
        init_step choice (set_likelihood_fn m lik') data i st g'
        = init_step choice m data i st g')
     ∧ length (assignment st) = i
     ∧ ∀ s, s ∈ clusters st → s ≠ ∅ ∧ ∀ x, x ∈ s → x < i)
  ∧ (∀ T i st m' c g' st1,
     sweep_prefix choice m data g T i = Ok (st, m', c, g') →
     detach i st = Ok st1 →
     (∀ lik', lik' data i (clusters st1) (assignment st1)
              = likelihood_fn m' data i (clusters st1) (assignment st1) →
        gibbs_step choice (set_likelihood_fn m' lik') data i st c g'
        = gibbs_step choice m' data i st c g')
     ∧ length (assignment st1) = length data
     ∧ (∀ s, s ∈ clusters st1 → s ≠ ∅ ∧ ∀ x, x ∈ s → x < length data ∧ x ≠ i)
     ∧ (∀ j s, j ≠ i → assignment st1 !! j = Some s → s ∈ clusters st1 ∧ j ∈ s)
     ∧ (∃ s, assignment st !! i = Some s ∧ i ∈ s
           ∧ assignment st1 !! i = Some (s ∖ {[i]}))).
Proof.
  split.
  - intros i st g' Hpre. apply init_prefix_inv in Hpre as [Hlen Hcoh].
    split.
    { intros lik' Hlik. unfold init_step, combined. simpl. by rewrite Hlik. }
    unfold assignment, clusters, view. rewrite length_fmap. split; [done|].
    intros s Hs. apply list_elem_of_fmap in Hs as (l & -> & Hl).
    split; [by apply (coh_live _ _ Hcoh)|].
    intros x Hx. by apply (coh_member _ _ Hcoh l x).
  - intros T i st m' c g' st1 Hpre Hd.
    apply sweep_prefix_inv in Hpre as [Hlen Hcoh].
    destruct (detach_coherent _ _ _ _ Hcoh Hlen Hd) as (Hi & Ha & _ & Hcoh1).
    split.
    { intros lik' Hlik. unfold gibbs_step, combined. rewrite Hd. simpl.
      by rewrite Hlik. }
    unfold assignment, clusters, view. rewrite length_fmap, Ha.
    split; [done|]. split; [|split].
    + intros s Hs. apply list_elem_of_fmap in Hs as (l & -> & Hl).
      split; [by apply (coh_live _ _ Hcoh1)|].
      intros x Hx. by apply (coh_member _ _ Hcoh1 l x).
    + intros j s Hj Hs. rewrite list_lookup_fmap in Hs.
      destruct (cluster_assn st !! j) as [l|] eqn:Hl; [|done].
      injection Hs as <-.
      assert (Hjn : j < length data) by (rewrite <- Hlen; by eapply lookup_lt_Some).
      destruct (coh_assn _ _ Hcoh1 j (conj Hjn Hj)) as (l' & Hl' & Hc & Hx).
      rewrite Ha, Hl in Hl'. injection Hl' as <-.
      split; [|done]. apply list_elem_of_fmap. by exists l.
    + destruct (coh_assn _ _ Hcoh i Hi) as (l & Hl & Hc & Hil).
      exists (deref (store st) l). rewrite !list_lookup_fmap, Hl. simpl.
      split; [done|]. split; [done|]. f_equal.
      unfold detach, list_get in Hd. rewrite Hl in Hd. simpl in Hd.
      unfold set_remove in Hd. rewrite bool_decide_eq_true_2 in Hd by done.
      simpl in Hd. ok_inv Hd. injection Hd as <-. simpl.
      by rewrite deref_insert_eq by (by apply (coh_live _ _ Hcoh)).
Qed.

(** X4.  After initialization and after every completed sweep the sizes of
    the clusters add up to the number of items, and the number of clusters
    is at most the number of items and at least one unless the dataset is
    empty. *)
Theorem cluster_count_bounds (m : model D) data g (T : nat) st m' g' :
  sweeps_prefix choice m data g T = Ok (st, m', g') →
  sum_list (size <$> clusters st) = length data
  ∧ length (clusters st) ≤ length data
  ∧ (data ≠ [] → clusters st ≠ []).
Proof.
  intros Hpre. apply sweeps_prefix_inv in Hpre as Hinv.
  pose proof (inv_is_partition _ _ Hinv) as (_ & Hunion & Hne).
  destruct Hinv as [Hlen Hcoh].
  assert (Hsum : sum_list (size <$> clusters st) = length data).
  { rewrite (coherent_sum_sizes _ (set_seq 0 (length data)) _ Hcoh).
    - apply size_set_seq.
    - intros j. rewrite elem_of_set_seq. lia. }
  split; [done|]. split.
  - rewrite <- Hsum. by apply length_le_sum_sizes.
  - intros Hdata Hnil. destruct data as [|d data]; [done|].
    destruct (proj1 (Hunion 0)) as (s & Hs & _); [simpl; lia|].
    rewrite Hnil in Hs. by apply elem_of_nil in Hs.
Qed.

End Passes.

Lemma pass_moves_one_item_witness :
  ∃ r r',
    sweep_prefix Reference.choice demo_model demo_data 7%Z 1 2 = Ok r
    ∧ gibbs_step Reference.choice r.1.1.2 demo_data 2 r.1.1.1 r.1.2 r.2 = Ok r'
    ∧ ∀ j k, j ≠ 2 → k ≠ 2 →
        cluster_assn r'.1.1 !! j = cluster_assn r.1.1.1 !! j
        ∧ (same_cluster (clusters r'.1.1) j k
           ↔ same_cluster (clusters r.1.1.1) j k).
Proof.
  eexists. eexists. split; [vm_compute; reflexivity|].
  match goal with
  | |- gibbs_step _ ?m _ _ ?st ?c ?g = _ ∧ _ =>
      pose proof (pass_moves_one_item Reference.choice demo_model demo_data 7%Z
                    1 2 st m c g) as Hthm
  end.
  split; [vm_compute; reflexivity|].
  eapply Hthm; vm_compute; reflexivity.
Defined.

Lemma pass_on_clusters_witness :
  (∃ r r',
     init_prefix Reference.choice demo_model demo_data 7%Z 2 = Ok r
     ∧ init_step Reference.choice demo_model demo_data 2 r.1 r.2 = Ok r'
     ∧ ∃ probs slot,
         combined demo_model (Z.of_nat 2) demo_data 2 r.1 = Ok probs
         ∧ draw Reference.choice probs r.2 = Ok (slot, r'.2)
         ∧ slot ≤ length (clusters r.1)
         ∧ clusters r'.1 = put_in 2 slot (clusters r.1))
  ∧ (∃ r r',
     sweep_prefix Reference.choice demo_model demo_data 7%Z 1 2 = Ok r
     ∧ gibbs_step Reference.choice r.1.1.2 demo_data 2 r.1.1.1 r.1.2 r.2 = Ok r'
     ∧ ∃ st1 probs slot,
         detach 2 r.1.1.1 = Ok st1
         ∧ clusters st1 = take_out 2 (clusters r.1.1.1)
         ∧ combined r.1.1.2 (Z.of_nat (length demo_data) - 1) demo_data 2 st1
           = Ok probs
         ∧ draw Reference.choice probs r.2 = Ok (slot, r'.2)
         ∧ slot ≤ length (clusters st1)
         ∧ clusters r'.1.1 = put_in 2 slot (clusters st1)
         ∧ r'.1.2 = if decide (slot = length (clusters st1))
                    then (r.1.2 + 1)%float else r.1.2).
Proof.
  split.
  - eexists. eexists. split; [vm_compute; reflexivity|].
    match goal with
    | |- init_step _ _ _ _ ?st ?g = _ ∧ _ =>
        pose proof (proj1 (pass_on_clusters Reference.choice demo_model demo_data
                      7%Z) 2 st g) as Hthm
    end.
    split; [vm_compute; reflexivity|].
    eapply Hthm; vm_compute; reflexivity.
  - eexists. eexists. split; [vm_compute; reflexivity|].
    match goal with
    | |- gibbs_step _ ?m _ _ ?st ?c ?g = _ ∧ _ =>
        pose proof (proj2 (pass_on_clusters Reference.choice demo_model demo_data
                      7%Z) 1 2 st m c g) as Hthm
    end.
    split; [vm_compute; reflexivity|].
    eapply Hthm; vm_compute; reflexivity.
Defined.

Lemma provider_view_witness :
  (∃ st g',
     init_prefix Reference.choice demo_model demo_data 7%Z 2 = Ok (st, g')
     ∧ init_step Reference.choice (set_likelihood_fn demo_model prefer_new_alt)
         demo_data 2 st g'
       = init_step Reference.choice demo_model demo_data 2 st g'
     ∧ length (assignment st) = 2
     ∧ ∀ s, s ∈ clusters st → s ≠ ∅ ∧ ∀ x, x ∈ s → x < 2)
  ∧ (∃ st m' c g' st1,
     sweep_prefix Reference.choice demo_model demo_data 7%Z 1 2 = Ok (st, m', c, g')
     ∧ detach 2 st = Ok st1
     ∧ gibbs_step Reference.choice (set_likelihood_fn m' prefer_new_alt)
         demo_data 2 st c g'
       = gibbs_step Reference.choice m' demo_data 2 st c g'
     ∧ length (assignment st1) = length demo_data
     ∧ (∀ s, s ∈ clusters st1 →
          s ≠ ∅ ∧ ∀ x, x ∈ s → x < length demo_data ∧ x ≠ 2)
     ∧ (∀ j s, j ≠ 2 → assignment st1 !! j = Some s → s ∈ clusters st1 ∧ j ∈ s)
     ∧ (∃ s, assignment st !! 2 = Some s ∧ 2 ∈ s
           ∧ assignment st1 !! 2 = Some (s ∖ {[2]}))).
Proof.
  split.
  - let v := eval vm_compute in
        (init_prefix Reference.choice demo_model demo_data 7%Z 2) in
    match v with
    | Ok (?st, ?g') =>
        assert (H : init_prefix Reference.choice demo_model demo_data 7%Z 2
                    = Ok (st, g')) by (vm_compute; reflexivity);
        destruct (proj1 (provider_view Reference.choice demo_model demo_data 7%Z)
                    2 st g' H) as (Hdep & Hlen & Hcl);
        exists st, g';
        refine (conj H (conj (Hdep prefer_new_alt _) (conj Hlen Hcl)));
        vm_compute; reflexivity
    end.
  - let v := eval vm_compute in
        (sweep_prefix Reference.choice demo_model demo_data 7%Z 1 2) in
    match v with
    | Ok (?st, ?m', ?c, ?g') =>
        assert (H : sweep_prefix Reference.choice demo_model demo_data 7%Z 1 2
                    = Ok (st, m', c, g')) by (vm_compute; reflexivity);
        let v1 := eval vm_compute in (detach 2 st) in
        match v1 with
        | Ok ?st1 =>
            assert (Hd : detach 2 st = Ok st1) by (vm_compute; reflexivity);
            destruct (proj2 (provider_view Reference.choice demo_model demo_data 7%Z)
                        1 2 st m' c g' st1 H Hd) as (Hdep & Hlen & Hcl & Hrefs & Hown);
            exists st, m', c, g', st1;
            refine (conj H (conj Hd (conj (Hdep prefer_new_alt _)
                      (conj Hlen (conj Hcl (conj Hrefs Hown))))));
            vm_compute; reflexivity
        end
    end.
Defined.

Lemma cluster_count_bounds_witness :
  ∃ r, sweeps_prefix Reference.choice demo_model demo_data 7%Z 2 = Ok r
     ∧ sum_list (size <$> clusters r.1.1) = length demo_data
     ∧ length (clusters r.1.1) ≤ length demo_data
     ∧ (demo_data ≠ [] → clusters r.1.1 ≠ []).
Proof.
  eexists. split; [vm_compute; reflexivity|].
  eapply (cluster_count_bounds Reference.choice demo_model demo_data 7%Z 2).
  vm_compute. reflexivity.
Defined.

(** ** The exceptions of [fit] *)

Lemma bind_Raise {A B} (r : result A) (f : A → result B) (e : exn) :
  r ≫= f = Raise e ↔ r = Raise e ∨ ∃ a, r = Ok a ∧ f a = Raise e.
Proof.
  destruct r as [a|e']; simpl.
  - split; [eauto | intros [[=] | (a' & [= <-] & H)]; done].
  - split; [intros [= ->]; auto | intros [[= ->] | (a' & [=] & _)]; done].
Qed.

Lemma crp_prior_raises (n : Z) (a : float) (h : heap) (c : list loc) (e : exn) :
  crp_prior n a h c = Raise e → e = ZeroDivisionError.
Proof.
  intros H. pose proof (crp_prior_outcome n a (PState h c [])) as Hp.
  unfold prior_outcome in Hp. simpl in Hp.
  destruct (float_of_int n + a =? 0)%float.
  - rewrite Hp in H. by injection H.
  - destruct Hp as (v & Hv & _). rewrite Hv in H. done.
Qed.

Lemma crp_prior_length (n : Z) (a : float) (h : heap) (c : list loc) (v : list float) :
  crp_prior n a h c = Ok v → length v = length c + 1.
Proof.
  intros H. pose proof (crp_prior_outcome n a (PState h c [])) as Hp.
  unfold prior_outcome in Hp. simpl in Hp.
  destruct (float_of_int n + a =? 0)%float.
  - rewrite Hp in H. done.
  - destruct Hp as (v' & Hv & Hlen & _). rewrite Hv in H. injection H as <-.
    unfold clusters, view in Hlen. simpl in Hlen. by rewrite length_fmap in Hlen.
Qed.

Lemma place_in_range (i cluster : nat) (h : heap) (c : list loc) :
  cluster ≤ length c →
  ∃ h' c' new l, place i cluster h c = Ok (h', c', new) ∧ list_get c' cluster = Ok l.
Proof.
  intros Hle. unfold place. destruct (decide (cluster = length c)) as [->|Hne].
  - simpl. eexists _, _, _, _. split; [done|]. apply list_get_Ok.
    rewrite lookup_app_r by lia. by rewrite Nat.sub_diag.
  - destruct (lookup_lt_is_Some_2 c cluster) as [l Hl]; [lia|].
    unfold list_get. rewrite Hl. simpl. eexists _, _, _, _. split; [done|].
    by rewrite Hl.
Qed.

Lemma coherent_fit_call {D} (data : list D) (P : nat → Prop) (i : nat) (st : pstate) :
  coherent P st → i < length data → (∀ j, P j → j < length data ∧ j ≠ i) →
  fit_call data i (clusters st).
Proof.
  intros [_ Hlive _ Hmem] Hi HP. split; [done|]. intros s Hs.
  apply list_elem_of_fmap in Hs as (l & -> & Hl). split.
  - by apply Hlive.
  - intros j Hj. apply HP. by apply (Hmem l j).
Qed.

Section Exceptions.
Context {D rng : Type}.
Variable choice : rng → nat → list float → result (nat * rng).
Variable lik : provider D.
Variable data : list D.
Variable E : exn → Prop.
Hypothesis lik_length : ∀ i cl ca v,
  fit_call data i cl → lik data i cl ca = Ok v → length v = length cl + 1.
Hypothesis choice_range : draws_in_range choice.
Hypothesis E_zero_division : E ZeroDivisionError.
Hypothesis E_lik : ∀ i cl ca e, fit_call data i cl → lik data i cl ca = Raise e → E e.
Hypothesis E_choice : ∀ g a p e, choice g a p = Raise e → E e.

Lemma combined_contract (m : model D) n i st :
  likelihood_fn m = lik → fit_call data i (clusters st) →
  match combined m n data i st with
  | Ok probs => length probs = length (clustering st) + 1
  | Raise e => E e
  end.
Proof.
  intros Hm Hcall. unfold combined.
  destruct (crp_prior n (alpha m) (store st) (clustering st)) as [crp|e] eqn:Hcrp;
    simpl.
  2:{ apply crp_prior_raises in Hcrp as ->. done. }
  apply crp_prior_length in Hcrp. rewrite Hm.
  destruct (lik data i (clusters st) (assignment st)) as [v|e] eqn:Hv; simpl.
  2:{ by eapply E_lik. }
  apply lik_length in Hv; [|done].
  unfold clusters, view in Hv. rewrite length_fmap in Hv.
  unfold np_mul. destruct (decide (length crp = length v)) as [Heq|Hne]; [|lia].
  rewrite length_zip_with. lia.
Qed.

Lemma draw_contract (probs : list float) (g : rng) :
  match draw choice probs g with
  | Ok (c, _) => c < length probs
  | Raise e => E e
  end.
Proof.
  unfold draw.
  destruct (choice g _ (np_div probs (np_sum probs))) as [[c g']|e] eqn:Hc.
  - apply choice_range in Hc. unfold np_div in Hc. by rewrite length_fmap in Hc.
  - by eapply E_choice.
Qed.

Lemma init_step_raises (m : model D) i st g e :
  likelihood_fn m = lik → inv i st → i < length data →
  init_step choice m data i st g = Raise e → E e.
Proof.
  intros Hm [_ Hcoh] Hi H. unfold init_step in H.
  assert (Hcall : fit_call data i (clusters st)).
  { eapply coherent_fit_call; [done | done |]. intros j Hj. simpl in Hj. lia. }
  pose proof (combined_contract m (Z.of_nat i) i st Hm Hcall) as Hc.
  destruct (combined m (Z.of_nat i) data i st) as [probs|e']; simpl in H.
  2:{ by injection H as <-. }
  pose proof (draw_contract probs g) as Hd.
  destruct (draw choice probs g) as [[c g']|e']; simpl in H.
  2:{ by injection H as <-. }
  destruct (place_in_range i c (store st) (clustering st)) as (h' & c' & new & l & Hp & Hl);
    [lia|].
  rewrite Hp in H. simpl in H. rewrite Hl in H. done.
Qed.

Lemma gibbs_step_raises (m : model D) i st c g e :
  likelihood_fn m = lik → inv (length data) st → i < length data →
  gibbs_step choice m data i st c g = Raise e → E e.
Proof.
  intros Hm Hinv Hi H. unfold gibbs_step in H.
  destruct (detach_total _ i st Hinv Hi) as [st1 Hd]. rewrite Hd in H. simpl in H.
  assert (Hcall : fit_call data i (clusters st1)).
  { destruct Hinv as [Hlen Hcoh].
    destruct (detach_coherent _ i st st1 Hcoh Hlen Hd) as (_ & _ & _ & Hcoh').
    eapply coherent_fit_call; [done | done |]. intros j Hj. simpl in Hj. done. }
  pose proof (combined_contract m (Z.of_nat (length data) - 1) i st1 Hm Hcall) as Hc.
  destruct (combined m _ data i st1) as [probs|e']; simpl in H.
  2:{ by injection H as <-. }
  pose proof (draw_contract probs g) as Hdr.
  destruct (draw choice probs g) as [[slot g']|e']; simpl in H.
  2:{ by injection H as <-. }
  destruct (place_in_range i slot (store st1) (clustering st1))
    as (h' & c' & new & l & Hp & Hl); [lia|].
  rewrite Hp in H. simpl in H. rewrite Hl in H. done.
Qed.

Lemma init_loop_raises (m : model D) k n st g e :
  likelihood_fn m = lik → inv n st → n + k ≤ length data →
  init_loop choice m data (seq n k) st g = Raise e → E e.
Proof.
  intros Hm. revert n st g. induction k as [|k IH]; intros n st g Hinv Hle H;
    simpl in H; [done|].
  destruct (init_step choice m data n st g) as [[st' g']|e'] eqn:Hs; simpl in H.
  - eapply (IH (S n)); [ | | done]; [by eapply init_step_inv | lia].
  - injection H as <-. eapply init_step_raises; [done | done | lia | done].
Qed.

Lemma sweep_loop_raises (m : model D) items st c g e :
  likelihood_fn m = lik → inv (length data) st →
  (∀ i, i ∈ items → i < length data) →
  sweep_loop choice m data items st c g = Raise e → E e.
Proof.
  intros Hm. revert st c g. induction items as [|i items IH];
    intros st c g Hinv Hitems H; simpl in H; [done|].
  destruct (gibbs_step choice m data i st c g) as [[[st' c'] g']|e'] eqn:Hs;
    simpl in H.
  - eapply IH; [ | | done].
    + by eapply gibbs_step_inv.
    + intros j Hj. apply Hitems. set_solver.
  - injection H as <-. eapply gibbs_step_raises; [done | done | | done].
    apply Hitems. set_solver.
Qed.

Lemma eb_adjust_provider (m m' : model D) t c :
  eb_adjust m t c = Ok m' → likelihood_fn m' = likelihood_fn m.
Proof.
  unfold eb_adjust. destruct (decide _); [done|].
  destruct (_ && _); by intros [= <-].
Qed.

Lemma eb_adjust_raises (m : model D) t c e :
  eb_adjust m t c = Raise e → e = ZeroDivisionError.
Proof.
  unfold eb_adjust. destruct (decide _); [by intros [= <-]|].
  by destruct (_ && _).
Qed.

Lemma fit_loop_raises (m : model D) ts st g e :
  likelihood_fn m = lik → inv (length data) st →
  fit_loop choice m data ts st g = Raise e → E e.
Proof.
  revert m st g. induction ts as [|t ts IH]; intros m st g Hm Hinv H;
    simpl in H; [done|].
  destruct (sweep choice m data t st g) as [[[st' m'] g']|e'] eqn:Hs; simpl in H.
  - eapply (IH m'); [ | | done].
    + unfold sweep in Hs. ok_inv Hs. injection Hs as <- <- <-.
      apply eb_adjust_provider in Hx0. by rewrite Hx0.
    + by eapply sweep_inv.
  - injection H as <-. unfold sweep in Hs.
    destruct (sweep_loop choice m data (seq 0 (length data)) st 0 g)
      as [[[st' c'] g']|e''] eqn:Hl; simpl in Hs.
    + destruct (eb_adjust m t c') as [m'|e''] eqn:Hadj; simpl in Hs; [done|].
      injection Hs as <-. by apply eb_adjust_raises in Hadj as ->.
    + injection Hs as <-. eapply sweep_loop_raises; [done | done | | done].
      intros i Hi. apply elem_of_seq in Hi. lia.
Qed.

Lemma fit_raises (m : model D) g e :
  likelihood_fn m = lik → fit choice m data g = Raise e → E e.
Proof.
  intros Hm H. unfold fit in H.
  destruct (initialize_assn choice m data g) as [[st g']|e'] eqn:Hi; simpl in H.
  - eapply fit_loop_raises; [done | | done]. by eapply initialize_assn_inv.
  - injection H as <-. eapply (init_loop_raises m (length data) 0); [done | | lia | done].
    split; [done | apply coherent_empty].
Qed.

End Exceptions.

Section ExceptionsOfFit.
Context {D rng : Type}.
Variable choice : rng → nat → list float → result (nat * rng).

(** X5.  With a provider that honours the length contract in the calls
    [fit] makes, and a sampler whose draws are in range, an exception that
    leaves [fit] is a [ZeroDivisionError] (a zero denominator of the prior,
    a zero [eb_interval]) or one raised by the provider in such a call, or
    by the sampler: the set and list operations of [fit] itself never
    raise, and the product never fails to broadcast. *)
Theorem fit_exceptions (E : exn → Prop) (m : model D) data g e :
  (∀ i cl ca v, fit_call data i cl → likelihood_fn m data i cl ca = Ok v →
     length v = length cl + 1) →
  draws_in_range choice →
  E ZeroDivisionError →
  (∀ i cl ca e, fit_call data i cl → likelihood_fn m data i cl ca = Raise e → E e) →
  (∀ g a p e, choice g a p = Raise e → E e) →
  fit choice m data g = Raise e → E e.
Proof.
  intros Hlen Hrange Hz Hlik Hch H.
  by eapply (fit_raises choice (likelihood_fn m) data E).
Qed.

End ExceptionsOfFit.

Lemma reference_draws_in_range : draws_in_range Reference.choice.
Proof.
  intros g a p c g' H. unfold Reference.choice in H.
  destruct (Reference.valid a p) eqn:Hv; [|done]. injection H as <- <-.
  unfold Reference.valid in Hv. rewrite !andb_true_iff in Hv.
  destruct Hv as [[[[Ha _] _] _] _]. apply negb_true_iff in Ha.
  apply bool_decide_eq_false in Ha. lia.
Qed.

Lemma reference_raises_ValueError g a p e :
  Reference.choice g a p = Raise e → e = ValueError.
Proof.
  unfold Reference.choice. destruct (Reference.valid a p); [done|].
  by intros [= <-].
Qed.

Lemma zero_when_honours_length bad : honours_length (zero_when bad).
Proof. intros data i cl ca v [= <-]. by rewrite length_replicate. Qed.

Lemma fit_exceptions_witness :
  fit Reference.choice early_zero_model demo_data 7%Z = Raise ValueError
  ∧ (ValueError = ZeroDivisionError ∨ ValueError = ValueError).
Proof.
  assert (H : fit Reference.choice early_zero_model demo_data 7%Z = Raise ValueError)
    by (vm_compute; reflexivity).
  split; [exact H|].
  apply (fit_exceptions Reference.choice
           (λ e, e = ZeroDivisionError ∨ e = ValueError)
           early_zero_model demo_data 7%Z ValueError).
  - intros i cl ca v _. apply zero_when_honours_length.
  - apply reference_draws_in_range.
  - by left.
  - intros i cl ca e _ He. done.
  - intros g a p e He. right. by eapply reference_raises_ValueError.
  - exact H.
Defined.

(** ** A draw past the new-cluster slot *)

Section OutOfRange.
Context {D rng : Type}.
Variable choice : rng → nat → list float → result (nat * rng).

Lemma place_out_of_range (i cluster : nat) (h : heap) (c : list loc) :
  length c < cluster → place i cluster h c = Raise IndexError.
Proof.
  intros Hlt. unfold place. destruct (decide _) as [|_]; [lia|].
  unfold list_get. by rewrite lookup_ge_None_2 by lia.
Qed.

(** X6.  A drawn slot past the one after the last cluster makes
    [clustering[cluster]] raise: [fit] ends with [IndexError].  The sampler
    is asked for a slot below the length of the product, which exceeds the
    number of clusters plus one only when a long likelihood vector was
    broadcast against the one-entry prior. *)
Theorem out_of_range_draw_raises (m : model D) data g :
  (∀ i st g' probs slot g'', i < length data →
     init_prefix choice m data g i = Ok (st, g') →
     combined m (Z.of_nat i) data i st = Ok probs →
     draw choice probs g' = Ok (slot, g'') →
     length (clustering st) < slot →
     fit choice m data g = Raise IndexError)
  ∧ (∀ T i st m' c g' st1 probs slot g'',
     (Z.of_nat T < num_iter m)%Z → i < length data →
     sweep_prefix choice m data g T i = Ok (st, m', c, g') →
     detach i st = Ok st1 →
     combined m' (Z.of_nat (length data) - 1) data i st1 = Ok probs →
     draw choice probs g' = Ok (slot, g'') →
     length (clustering st1) < slot →
     fit choice m data g = Raise IndexError).
Proof.
  split.
  - intros i st g' probs slot g'' Hi Hpre Hc Hd Hslot.
    eapply fit_raises_in_init; [done | done |].
    unfold init_step. rewrite Hc. simpl. rewrite Hd. simpl.
    by rewrite place_out_of_range.
  - intros T i st m' c g' st1 probs slot g'' HT Hi Hpre Hdet Hc Hd Hslot.
    eapply fit_raises_in_sweep; [done | done | done |].
    unfold gibbs_step. rewrite Hdet. simpl. rewrite Hc. simpl. rewrite Hd. simpl.
    by rewrite place_out_of_range.
Qed.

End OutOfRange.

Lemma out_of_range_draw_raises_witness :
  fit Reference.choice always_mismatch_model demo_data 7%Z = Raise IndexError
  ∧ fit Reference.choice late_mismatch_single_model one_item_data 2%Z
    = Raise IndexError.
Proof.
  split.
  - refine (proj1 (out_of_range_draw_raises Reference.choice always_mismatch_model
      demo_data 7%Z) 0 (PState [] [] []) 7%Z [1; 1; 1]%float 1 _ _ _ _ _ _);
      [vm_compute; lia | vm_compute; reflexivity | vm_compute; reflexivity
      | vm_compute; reflexivity | vm_compute; lia].
  - refine (proj2 (out_of_range_draw_raises Reference.choice
      late_mismatch_single_model one_item_data 2%Z)
      0 0 (PState [{[0]}] [0] [0]) late_mismatch_single_model 0%float 59559187%Z
      (PState [∅] [] [0]) [1; 1; 1]%float 2 _ _ _ _ _ _ _ _);
      [vm_compute; reflexivity | vm_compute; lia | vm_compute; reflexivity
      | vm_compute; reflexivity | vm_compute; reflexivity
      | vm_compute; reflexivity | vm_compute; lia].
Defined.

(** ** What [fit] does to the model object *)

Section ModelAfterFit.
Context {D rng : Type}.
Variable choice : rng → nat → list float → result (nat * rng).

Lemma sweep_loop_created (m : model D) data items st c g st' c' g' :
  sweep_loop choice m data items st c g = Ok (st', c', g') →
  length (store st') ≤ length (store st) + length items.
Proof.
  revert st c g. induction items as [|i items IH]; intros st c g H; simpl in H.
  - injection H as <- <- <-. lia.
  - ok_inv H. apply gibbs_step_count in Hx as (new & Hlen & _).
    apply IH in H. simpl. destruct new; lia.
Qed.

(** The model a sweep leaves: the schedule and the provider as they were,
    alpha as it was or the count of the clusters the sweep created. *)
Lemma sweep_model (m : model D) data t st g st' m' g' :
  sweep choice m data t st g = Ok (st', m', g') →
  m' = m
  ∨ ∃ k, k ≤ length data ∧ m' = set_alpha m (count_float k).
Proof.
  intros H. unfold sweep in H. ok_inv H. injection H as <- <- <-.
  pose proof (sweep_loop_count choice m data _ st 0 g _ _ _ Hx) as [Hle ->].
  apply sweep_loop_created in Hx. rewrite length_seq in Hx.
  unfold eb_adjust in Hx0. destruct (decide _); [done|].
  destruct (_ && _); injection Hx0 as <-; [|by left].
  right. eexists. split; [|done]. simpl. lia.
Qed.

Lemma fit_loop_model (m : model D) data ts st g st' m' g' :
  fit_loop choice m data ts st g = Ok (st', m', g') →
  m' = m
  ∨ ∃ k, k ≤ length data ∧ m' = set_alpha m (count_float k).
Proof.
  revert m st g. induction ts as [|t ts IH]; intros m st g H; simpl in H.
  - injection H as <- <- <-. by left.
  - ok_inv H. apply sweep_model in Hx. apply IH in H.
    destruct Hx as [-> | (k & Hk & ->)]; [done|].
    destruct H as [-> | (k' & Hk' & ->)]; right; eauto.
Qed.

(** X7.  [fit] changes nothing of the model object but [alpha], and it leaves
    [alpha] either as it was or as the float count of the clusters created
    in one sweep, at most the number of items. *)
Theorem fit_changes_only_alpha (m : model D) data g st m' g' :
  fit choice m data g = Ok (st, m', g') →
  likelihood_fn m' = likelihood_fn m
  ∧ num_iter m' = num_iter m
  ∧ eb_start m' = eb_start m
  ∧ eb_interval m' = eb_interval m
  ∧ (alpha m' = alpha m
     ∨ ∃ k, k ≤ length data ∧ alpha m' = count_float k).
Proof.
  intros H. unfold fit in H. ok_inv H. apply fit_loop_model in H.
  destruct H as [-> | (k & Hk & ->)]; simpl.
  - repeat split. by left.
  - repeat split. right. eauto.
Qed.

(** X8.  With [eb_interval = 0] and at least one sweep to run, [fit] never
    returns: when the passes of sweep 0 all succeed, the test
    [t % self.eb_interval] that closes the sweep raises
    [ZeroDivisionError]. *)
Theorem zero_interval_never_returns (m : model D) data g :
  eb_interval m = 0%Z → (0 < num_iter m)%Z →
  (∃ e, fit choice m data g = Raise e)
  ∧ (∀ r, sweep_prefix choice m data g 0 (length data) = Ok r →
       fit choice m data g = Raise ZeroDivisionError).
Proof.
  intros Hint Hn.
  assert (Hfit : fit choice m data g
    = '(st, g) ← initialize_assn choice m data g;
      '(st, c, g) ← sweep_loop choice m data (seq 0 (length data)) st 0%float g;
      Raise ZeroDivisionError).
  { unfold fit, py_range.
    destruct (Z.to_nat (num_iter m)) as [|k] eqn:Hk; [lia|].
    destruct (initialize_assn choice m data g) as [[st0 g0]|e]; simpl; [|done].
    unfold sweep.
    destruct (sweep_loop choice m data (seq 0 (length data)) st0 0 g0)
      as [[[st1 c1] g1]|e]; simpl; [|done].
    unfold eb_adjust. rewrite Hint. by destruct (decide (0 = 0)%Z). }
  split.
  - rewrite Hfit.
    destruct (initialize_assn choice m data g) as [[st0 g0]|e]; simpl; [|eauto].
    destruct (sweep_loop choice m data (seq 0 (length data)) st0 0 g0)
      as [[[st1 c1] g1]|e]; simpl; eauto.
  - intros r Hr. rewrite Hfit. unfold sweep_prefix, sweeps_prefix in Hr.
    simpl in Hr.
    destruct (initialize_assn choice m data g) as [[st0 g0]|e]; simpl in *; [|done].
    destruct (sweep_loop choice m data (seq 0 (length data)) st0 0 g0)
      as [[[st1 c1] g1]|e]; simpl in *; done.
Qed.

End ModelAfterFit.

Lemma fit_changes_only_alpha_witness :
  ∃ r, fit Reference.choice demo_model demo_data 7%Z = Ok r
    ∧ likelihood_fn r.1.2 = likelihood_fn demo_model
    ∧ num_iter r.1.2 = num_iter demo_model
    ∧ eb_start r.1.2 = eb_start demo_model
    ∧ eb_interval r.1.2 = eb_interval demo_model
    ∧ (alpha r.1.2 = alpha demo_model
       ∨ ∃ k, k ≤ length demo_data ∧ alpha r.1.2 = count_float k).
Proof.
  eexists. split; [vm_compute; reflexivity|].
  eapply (fit_changes_only_alpha Reference.choice demo_model demo_data 7%Z).
  vm_compute. reflexivity.
Defined.

Lemma zero_interval_never_returns_witness :
  fit Reference.choice zero_interval_model demo_data 7%Z = Raise ZeroDivisionError.
Proof.
  destruct (zero_interval_never_returns Reference.choice zero_interval_model
              demo_data 7%Z) as [_ H]; [reflexivity | reflexivity |].
  eapply H. vm_compute. reflexivity.
Defined.

(** ** A zero alpha *)

Lemma zero_is_zero_or_nan (a : float) : (a =? 0)%float = true → zero_or_nan a.
Proof. intros [b Ha]%eqb_zero_spec. unfold zero_or_nan. by rewrite Ha. Qed.

Lemma zero_or_nan_div (x d : float) : zero_or_nan x → zero_or_nan (x / d).
Proof.
  unfold zero_or_nan. rewrite div_spec.
  destruct (Prim2SF x) as [b|b| |b m e]; try done;
    destruct (Prim2SF d) as [b'|b'| |b' m' e']; done.
Qed.

Lemma zero_or_nan_mul_l (x l : float) : zero_or_nan x → zero_or_nan (x * l).
Proof.
  unfold zero_or_nan. rewrite mul_spec.
  destruct (Prim2SF x) as [b|b| |b m e]; try done;
    destruct (Prim2SF l) as [b'|b'| |b' m' e']; done.
Qed.

Lemma zero_or_nan_not_positive (x : float) :
  zero_or_nan x → (0 <? x)%float = false.
Proof.
  unfold zero_or_nan. rewrite ltb_spec. change (Prim2SF 0) with (S754_zero false).
  destruct (Prim2SF x) as [b|b| |b m e]; done.
Qed.

(** With a zero alpha the last entry of the prior is a zero or NaN. *)
Lemma crp_prior_zero_alpha (n : Z) (a : float) (h : heap) (c : list loc) v :
  (a =? 0)%float = true → crp_prior n a h c = Ok v →
  ∃ ps p, v = ps ++ [p] ∧ length ps = length c ∧ zero_or_nan p.
Proof.
  intros Ha H. pose proof (crp_prior_length _ _ _ _ _ H) as Hlen.
  unfold crp_prior in H. ok_inv H. injection H as <-.
  exists x, x0. split; [done|]. split.
  - rewrite length_app in Hlen. simpl in Hlen. lia.
  - unfold py_div in Hx0. destruct (float_of_int n + a =? 0)%float; [done|].
    injection Hx0 as <-. by apply zero_or_nan_div, zero_is_zero_or_nan.
Qed.

Lemma np_mul_zero_slot (ps : list float) (p : float) (lik probs : list float) x :
  zero_or_nan p → np_mul (ps ++ [p]) lik = Ok probs →
  probs !! length ps = Some x → zero_or_nan x.
Proof.
  intros Hp H Hx. unfold np_mul in H. destruct (decide _) as [Hlen|Hlen].
  - injection H as <-. apply lookup_zip_with_Some in Hx as (a & b & -> & Ha & Hb).
    rewrite lookup_app_r, Nat.sub_diag in Ha by lia. injection Ha as <-.
    by apply zero_or_nan_mul_l.
  - destruct ps as [|q ps]; simpl in H.
    + injection H as <-. simpl in Hx. destruct lik as [|l lik]; [done|].
      injection Hx as <-. by apply zero_or_nan_mul_l.
    + assert (∃ y, lik = [y]) as [y ->].
      { destruct (ps ++ [p]) eqn:E; [by destruct ps|].
        destruct lik as [|y [|]]; try done. eauto. }
      assert (probs = (λ x, x * y)%float <$> (q :: ps ++ [p])) as ->.
      { destruct (ps ++ [p]) eqn:E; [by destruct ps|]. by injection H as <-. }
      change (q :: ps ++ [p]) with ((q :: ps) ++ [p]) in Hx.
      rewrite list_lookup_fmap, lookup_app_r, Nat.sub_diag in Hx by done.
      injection Hx as <-. by apply zero_or_nan_mul_l.
Qed.

Lemma list_remove_length (h : heap) (x : loc) (c c' : list loc) :
  list_remove h x c = Ok c' → length c' ≤ length c.
Proof.
  revert c'. induction c as [|y c IH]; intros c' H; simpl in H; [done|].
  destruct (_ || _).
  - injection H as <-. simpl. lia.
  - ok_inv H. injection H as <-. apply IH in Hx. simpl. lia.
Qed.

Lemma detach_count (i : nat) (st st' : pstate) :
  detach i st = Ok st' → length (clusters st') ≤ length (clusters st).
Proof.
  intros H. unfold detach in H. ok_inv H. injection H as <-.
  unfold clusters, view. rewrite !length_fmap. simpl.
  destruct (decide _); [by eapply list_remove_length | by injection Hx1 as <-].
Qed.

Section ZeroAlpha.
Context {D rng : Type}.
Variable choice : rng → nat → list float → result (nat * rng).
Hypothesis choice_positive : draws_positive choice.

Lemma combined_zero_slot (m : model D) n data i st probs x :
  (alpha m =? 0)%float = true → combined m n data i st = Ok probs →
  probs !! length (clustering st) = Some x → zero_or_nan x.
Proof.
  intros Ha H Hx. unfold combined in H. ok_inv H.
  destruct (crp_prior_zero_alpha _ _ _ _ _ Ha Hx0) as (ps & p & -> & Hlen & Hp).
  rewrite <- Hlen in Hx. by eapply np_mul_zero_slot.
Qed.

Lemma draw_zero_slot (m : model D) n data i st probs slot g g' :
  (alpha m =? 0)%float = true → combined m n data i st = Ok probs →
  draw choice probs g = Ok (slot, g') → slot ≠ length (clustering st).
Proof.
  intros Ha Hc Hd ->. unfold draw in Hd.
  apply choice_positive in Hd as (x & Hx & Hpos).
  unfold np_div in Hx. rewrite list_lookup_fmap in Hx.
  destruct (probs !! length (clustering st)) as [y|] eqn:Hy; [|done].
  injection Hx as <-.
  pose proof (combined_zero_slot _ _ _ _ _ _ _ Ha Hc Hy) as Hz.
  apply (zero_or_nan_div _ (np_sum probs)), zero_or_nan_not_positive in Hz.
  congruence.
Qed.

Lemma gibbs_step_zero_alpha (m : model D) data i st c g st' c' g' :
  (alpha m =? 0)%float = true →
  gibbs_step choice m data i st c g = Ok (st', c', g') →
  c' = c ∧ length (store st') = length (store st)
  ∧ length (clusters st') ≤ length (clusters st).
Proof.
  intros Ha H. unfold gibbs_step in H. ok_inv H. injection H as <- <- <-.
  pose proof (draw_zero_slot _ _ _ _ _ _ _ _ _ Ha Hx0 Hx1) as Hne.
  pose proof (detach_store_length _ _ _ Hx) as Hst.
  pose proof (detach_count _ _ _ Hx) as Hcount.
  unfold place in Hx2. destruct (decide _); [done|]. ok_inv Hx2.
  injection Hx2 as <- <- <-. simpl. split; [done|].
  unfold set_add. rewrite length_insert. split; [done|].
  unfold clusters, view in *. rewrite !length_fmap in *. done.
Qed.

Lemma sweep_loop_zero_alpha (m : model D) data items st c g st' c' g' :
  (alpha m =? 0)%float = true →
  sweep_loop choice m data items st c g = Ok (st', c', g') →
  c' = c ∧ length (store st') = length (store st)
  ∧ length (clusters st') ≤ length (clusters st).
Proof.
  intros Ha. revert st c g. induction items as [|i items IH]; intros st c g H;
    simpl in H.
  - by injection H as <- <- <-.
  - ok_inv H. apply gibbs_step_zero_alpha in Hx as (-> & Hs & Hc); [|done].
    apply IH in H as (-> & Hs' & Hc'). split; [done|]. split; lia.
Qed.

Lemma fit_loop_zero_alpha (m : model D) data ts st g st' m' g' :
  (alpha m =? 0)%float = true →
  fit_loop choice m data ts st g = Ok (st', m', g') →
  (alpha m' =? 0)%float = true ∧ length (store st') = length (store st)
  ∧ length (clusters st') ≤ length (clusters st).
Proof.
  revert m st g. induction ts as [|t ts IH]; intros m st g Ha H; simpl in H.
  - by injection H as <- <- <-.
  - ok_inv H. unfold sweep in Hx. ok_inv Hx. injection Hx as <- <- <-.
    apply sweep_loop_zero_alpha in Hx0 as (-> & Hs & Hc); [|done].
    match goal with
    | Heb : eb_adjust m t _ = Ok ?mt |- _ =>
        assert ((alpha mt =? 0)%float = true) as Ha';
        [unfold eb_adjust in Heb; destruct (decide _); [done|];
         destruct (_ && _); by injection Heb as <- |]
    end.
    apply IH in H as (Ha'' & Hs' & Hc'); [|done]. split; [done|]. split; lia.
Qed.

(** X9.  A zero alpha is absorbing.  With a sampler that returns only slots
    of positive probability: once a sweep has left alpha at zero (the
    Empirical Bayes step does so after a sweep that created no cluster),
    no later pass creates a cluster, the number of clusters never grows
    again, and alpha is zero after every later sweep. *)
Theorem zero_alpha_is_absorbing (m : model D) data g (T T' : nat) st m' g' st2 m2 g2 :
  sweeps_prefix choice m data g T = Ok (st, m', g') →
  (alpha m' =? 0)%float = true →
  T ≤ T' →
  sweeps_prefix choice m data g T' = Ok (st2, m2, g2) →
  (alpha m2 =? 0)%float = true
  ∧ length (store st2) = length (store st)
  ∧ length (clusters st2) ≤ length (clusters st).
Proof.
  intros HT Ha Hle HT'. unfold sweeps_prefix in HT, HT'.
  replace T' with (T + (T' - T)) in HT' by lia.
  unfold py_range in HT, HT'. rewrite Nat2Z.id in HT, HT'.
  rewrite seq_app, fmap_app in HT'.
  destruct (initialize_assn choice m data g) as [[st0 g0]|]; [|done].
  simpl in HT, HT'. rewrite fit_loop_app, HT in HT'. simpl in HT'.
  by eapply fit_loop_zero_alpha.
Qed.

End ZeroAlpha.

Lemma first_positive_draws_positive : draws_positive first_positive.
Proof.
  intros g a p c g' H. unfold first_positive in H.
  destruct (list_find _ p) as [[j x]|] eqn:E; [|done]. injection H as <- <-.
  apply list_find_Some in E as (Hx & Hpos & _). eauto.
Qed.

Lemma zero_alpha_is_absorbing_witness :
  ∃ r r2,
    sweeps_prefix first_positive flat_model demo_data () 26 = Ok r
    ∧ (alpha r.1.2 =? 0)%float = true
    ∧ sweeps_prefix first_positive flat_model demo_data () 40 = Ok r2
    ∧ (alpha r2.1.2 =? 0)%float = true
    ∧ length (store r2.1.1) = length (store r.1.1)
    ∧ length (clusters r2.1.1) ≤ length (clusters r.1.1).
Proof.
  eexists (_, _, _), (_, _, _).
  split; [vm_compute; reflexivity|]. split; [vm_compute; reflexivity|].
  split; [vm_compute; reflexivity|].
  cbn [fst snd].
  match goal with
  | |- (alpha ?m2 =? 0)%float = true ∧ length (store ?s2) = length (store ?s1) ∧ _ =>
      apply (zero_alpha_is_absorbing first_positive first_positive_draws_positive
               flat_model demo_data () 26 40 s1 (set_alpha flat_model 0) () s2 m2 ())
  end.
  - vm_compute; reflexivity.
  - vm_compute; reflexivity.
  - lia.
  - vm_compute; reflexivity.
Defined.

(** ** The likelihood of the one-dimensional demonstration *)

Section Likelihood1dProperties.
Variable np_mean : list float → float.
Variable norm_pdf : float → float → float → float.
Variable py_list : gset nat → list nat.
Hypothesis py_list_members : ∀ s j, j ∈ py_list s ↔ j ∈ s.

Lemma np_take_outcome (data : list float) (js : list nat) :
  match np_take data js with
  | Ok xs => length xs = length js ∧ ∀ j, j ∈ js → j < length data
  | Raise e => e = IndexError ∧ ∃ j, j ∈ js ∧ ¬ j < length data
  end.
Proof.
  induction js as [|j js IH]; simpl; [split; [done | set_solver]|].
  unfold list_get at 1. destruct (data !! j) as [x|] eqn:Hx; simpl.
  - apply lookup_lt_Some in Hx. destruct (np_take data js) as [xs|e]; simpl.
    + destruct IH as [Hlen Hin]. split; [by rewrite Hlen|].
      intros k [->|Hk]%elem_of_cons; [done | by apply Hin].
    + destruct IH as [-> (k & Hk & Hge)]. split; [done|]. exists k.
      split; [set_solver | done].
  - apply lookup_ge_None in Hx. split; [done|]. exists j. split; [set_solver | lia].
Qed.

Lemma cluster_means_outcome (data : list float) (cl : list (gset nat)) :
  match cluster_means np_mean py_list data cl with
  | Ok means => length means = length cl ∧ ∀ s j, s ∈ cl → j ∈ s → j < length data
  | Raise e => e = IndexError ∧ ∃ s j, s ∈ cl ∧ j ∈ s ∧ ¬ j < length data
  end.
Proof.
  induction cl as [|s cl IH]; simpl; [split; [done | set_solver]|].
  pose proof (np_take_outcome data (py_list s)) as Ht.
  destruct (np_take data (py_list s)) as [xs|e]; simpl.
  - destruct Ht as [_ Hin]. destruct (cluster_means np_mean py_list data cl) as [means|e]; simpl.
    + destruct IH as [Hlen Hcl]. split; [by rewrite Hlen|].
      intros s' j [->|Hs']%elem_of_cons Hj.
      * apply Hin. by apply py_list_members.
      * by eapply Hcl.
    + destruct IH as [-> (s' & j & Hs' & Hj & Hge)]. split; [done|].
      exists s', j. split; [set_solver | done].
  - destruct Ht as [-> (j & Hj & Hge)]. split; [done|].
    exists s, j. split; [set_solver|]. split; [by apply py_list_members | done].
Qed.

Lemma likelihood_1d_outcome (data : list float) i cl ca :
  match likelihood_1d np_mean norm_pdf py_list data i cl ca with
  | Ok v => length v = length cl + 1 ∧ indices_in_range data i cl
  | Raise e => e = IndexError ∧ ¬ indices_in_range data i cl
  end.
Proof.
  unfold likelihood_1d, indices_in_range.
  pose proof (cluster_means_outcome data cl) as Hm.
  destruct (cluster_means np_mean py_list data cl) as [means|e]; simpl.
  - destruct Hm as [Hlen Hcl]. unfold list_get.
    destruct (data !! i) as [x|] eqn:Hx; simpl.
    + apply lookup_lt_Some in Hx. split; [|done].
      rewrite length_zip_with, !length_app, length_fmap, Hlen. simpl. lia.
    + apply lookup_ge_None in Hx. split; [done|]. intros [Hi _]. lia.
  - destruct Hm as [-> (s & j & Hs & Hj & Hge)]. split; [done|].
    intros [_ Hcl]. apply Hge. by eapply Hcl.
Qed.

(** X10.  [likelihood_1d] returns exactly when the item and all members of
    the clusters index the dataset; it then returns one entry per cluster
    and one more, the length [fit] needs.  Otherwise it raises
    [IndexError]. *)
Theorem likelihood_1d_contract (data : list float) i cl ca :
  (indices_in_range data i cl →
     ∃ v, likelihood_1d np_mean norm_pdf py_list data i cl ca = Ok v
        ∧ length v = length cl + 1)
  ∧ (¬ indices_in_range data i cl →
     likelihood_1d np_mean norm_pdf py_list data i cl ca = Raise IndexError).
Proof.
  pose proof (likelihood_1d_outcome data i cl ca) as H.
  destruct (likelihood_1d np_mean norm_pdf py_list data i cl ca) as [v|e] eqn:E.
  - destruct H as [Hlen Hin]. split; [eauto | done].
  - destruct H as [-> Hno]. split; done.
Qed.

Section FitWithLikelihood1d.
Context {rng : Type}.
Variable choice : rng → nat → list float → result (nat * rng).

(** X11.  [fit] with [likelihood_1d] as provider and a sampler whose draws
    are in range: the provider never raises (it is only called on items and
    clusters of the dataset) and its vectors have the right length, so an
    exception that leaves [fit] is a [ZeroDivisionError] or the sampler's. *)
Theorem fit_with_likelihood_1d (m : model float) data g e :
  likelihood_fn m = likelihood_1d np_mean norm_pdf py_list →
  draws_in_range choice →
  fit choice m data g = Raise e →
  e = ZeroDivisionError ∨ ∃ g' a p, choice g' a p = Raise e.
Proof.
  intros Hm Hrange H.
  assert (Hcall : ∀ i cl, fit_call data i cl → indices_in_range data i cl).
  { intros i cl [Hi Hcl]. split; [done|]. intros s j Hs Hj.
    by apply (Hcl s Hs). }
  eapply (fit_raises choice (likelihood_fn m) data
            (λ e, e = ZeroDivisionError ∨ ∃ g' a p, choice g' a p = Raise e));
    [ | done | by left | | | done | done].
  - intros i cl ca v _ Hv. rewrite Hm in Hv.
    pose proof (likelihood_1d_outcome data i cl ca) as Ho. rewrite Hv in Ho.
    by destruct Ho.
  - intros i cl ca e' Hfc He. rewrite Hm in He.
    pose proof (likelihood_1d_outcome data i cl ca) as Ho. rewrite He in Ho.
    destruct Ho as [_ Hno]. destruct Hno. by apply Hcall.
  - intros g' a p e' He. right. eauto.
Qed.

End FitWithLikelihood1d.
End Likelihood1dProperties.

Lemma elements_members (s : gset nat) (j : nat) : j ∈ elements s ↔ j ∈ s.
Proof. apply elem_of_elements. Qed.

Lemma likelihood_1d_contract_witness :
  indices_in_range example_data_1d 0 [{[1; 2]}]
  ∧ ∃ v, likelihood_1d mean_in_order bell elements example_data_1d 0 [{[1; 2]}] [] = Ok v
       ∧ length v = length [({[1; 2]} : gset nat)] + 1.
Proof.
  assert (Hin : indices_in_range example_data_1d 0 [{[1; 2]}]).
  { split; [simpl; lia|]. intros s j ->%list_elem_of_singleton Hj. simpl.
    apply elem_of_union in Hj as [->%elem_of_singleton | ->%elem_of_singleton]; lia. }
  split; [exact Hin|].
  exact (proj1 (likelihood_1d_contract mean_in_order bell elements elements_members
                  example_data_1d 0 [{[1; 2]}] []) Hin).
Defined.

Lemma fit_with_likelihood_1d_witness :
  (∃ r, sweep_prefix Reference.choice zero_interval_model_1d example_data_1d 7%Z
          0 (length example_data_1d) = Ok r)
  ∧ fit Reference.choice zero_interval_model_1d example_data_1d 7%Z
    = Raise ZeroDivisionError
  ∧ (ZeroDivisionError = ZeroDivisionError
     ∨ ∃ g' a p, Reference.choice g' a p = Raise ZeroDivisionError).
Proof.
  assert (H : fit Reference.choice zero_interval_model_1d example_data_1d 7%Z
              = Raise ZeroDivisionError) by (vm_compute; reflexivity).
  split; [eexists; vm_compute; reflexivity|]. split; [exact H|].
  exact (fit_with_likelihood_1d mean_in_order bell elements elements_members
           Reference.choice zero_interval_model_1d example_data_1d 7%Z
           ZeroDivisionError eq_refl reference_draws_in_range H).
Defined.

(** ** The draws of a run *)

Section Draws.
Context {D rng : Type}.
Variable choice : rng → nat → list float → result (nat * rng).

Lemma draw_logged (probs : list float) g l :
  follows 1 l (draw choice probs g) (draw (logged choice) probs (g, l)).
Proof.
  unfold follows, draw, logged. simpl.
  destruct (choice g _ _) as [[c g']|e]; simpl; [|done]. by exists [c].
Qed.

Lemma init_step_logged (m : model D) data i st g l :
  follows 1 l (init_step choice m data i st g)
            (init_step (logged choice) m data i st (g, l)).
Proof.
  unfold init_step. destruct (combined m _ data i st) as [probs|e]; simpl; [|done].
  pose proof (draw_logged probs g l) as Hd. unfold follows in Hd.
  destruct (draw choice probs g) as [[c g']|e]; simpl.
  - destruct Hd as (cs & Hlen & ->). simpl.
    destruct (place i c (store st) (clustering st)) as [[[h c'] new]|e]; simpl; [|done].
    destruct (list_get c' c) as [l'|e]; simpl; [|done]. eauto.
  - by rewrite Hd.
Qed.

Lemma gibbs_step_logged (m : model D) data i st c g l :
  match gibbs_step choice m data i st c g with
  | Ok (st', c', g') =>
      ∃ cs, length cs = 1
        ∧ gibbs_step (logged choice) m data i st c (g, l) = Ok (st', c', (g', l ++ cs))
  | Raise e => gibbs_step (logged choice) m data i st c (g, l) = Raise e
  end.
Proof.
  unfold gibbs_step. destruct (detach i st) as [st1|e]; simpl; [|done].
  destruct (combined m _ data i st1) as [probs|e]; simpl; [|done].
  pose proof (draw_logged probs g l) as Hd. unfold follows in Hd.
  destruct (draw choice probs g) as [[slot g']|e]; simpl.
  - destruct Hd as (cs & Hlen & ->). simpl.
    destruct (place i slot (store st1) (clustering st1)) as [[[h c'] new]|e]; simpl;
      [|done].
    destruct (list_get c' slot) as [l'|e]; simpl; [|done]. eauto.
  - by rewrite Hd.
Qed.

Lemma init_loop_logged (m : model D) data items st g l :
  follows (length items) l (init_loop choice m data items st g)
            (init_loop (logged choice) m data items st (g, l)).
Proof.
  revert st g l. induction items as [|i items IH]; intros st g l; simpl.
  - exists []. by rewrite app_nil_r.
  - pose proof (init_step_logged m data i st g l) as Hs. unfold follows in Hs.
    destruct (init_step choice m data i st g) as [[st' g']|e]; simpl.
    + destruct Hs as (cs & Hlen & ->). simpl.
      pose proof (IH st' g' (l ++ cs)) as Hl. unfold follows in Hl |- *.
      destruct (init_loop choice m data items st' g') as [[st'' g'']|e]; [|done].
      destruct Hl as (cs' & Hlen' & ->). exists (cs ++ cs').
      rewrite length_app, app_assoc. split; [lia | done].
    + by rewrite Hs.
Qed.

Lemma sweep_loop_logged (m : model D) data items st c g l :
  match sweep_loop choice m data items st c g with
  | Ok (st', c', g') =>
      ∃ cs, length cs = length items
        ∧ sweep_loop (logged choice) m data items st c (g, l)
          = Ok (st', c', (g', l ++ cs))
  | Raise e => sweep_loop (logged choice) m data items st c (g, l) = Raise e
  end.
Proof.
  revert st c g l. induction items as [|i items IH]; intros st c g l; simpl.
  - exists []. by rewrite app_nil_r.
  - pose proof (gibbs_step_logged m data i st c g l) as Hs.
    destruct (gibbs_step choice m data i st c g) as [[[st' c'] g']|e]; simpl.
    + destruct Hs as (cs & Hlen & ->). simpl.
      pose proof (IH st' c' g' (l ++ cs)) as Hl.
      destruct (sweep_loop choice m data items st' c' g') as [[[st'' c''] g'']|e];
        [|done].
      destruct Hl as (cs' & Hlen' & ->). exists (cs ++ cs').
      rewrite length_app, app_assoc. split; [lia | done].
    + by rewrite Hs.
Qed.

Lemma fit_loop_logged (m : model D) data ts st g l :
  match fit_loop choice m data ts st g with
  | Ok (st', m', g') =>
      ∃ cs, length cs = length ts * length data
        ∧ fit_loop (logged choice) m data ts st (g, l) = Ok (st', m', (g', l ++ cs))
  | Raise e => fit_loop (logged choice) m data ts st (g, l) = Raise e
  end.
Proof.
  revert m st g l. induction ts as [|t ts IH]; intros m st g l; simpl.
  - exists []. by rewrite app_nil_r.
  - unfold sweep.
    pose proof (sweep_loop_logged m data (seq 0 (length data)) st 0 g l) as Hs.
    destruct (sweep_loop choice m data _ st 0 g) as [[[st' c'] g']|e]; simpl.
    + destruct Hs as (cs & Hlen & ->). simpl. rewrite length_seq in Hlen.
      destruct (eb_adjust m t c') as [m'|e]; simpl; [|done].
      pose proof (IH m' st' g' (l ++ cs)) as Hl.
      destruct (fit_loop choice m' data ts st' g') as [[[st'' m''] g'']|e]; [|done].
      destruct Hl as (cs' & Hlen' & ->). exists (cs ++ cs').
      rewrite length_app, app_assoc. split; [lia | done].
    + by rewrite Hs.
Qed.

(** X12.  A run of [fit] that returns has consulted the sampler exactly once
    for every item in the initialization and once for every item in every
    sweep, no pass skipped or repeated: [len(data) * (1 + num_iter)] draws,
    and [len(data)] draws when [num_iter] is negative, since [range(num_iter)]
    is then empty.  Recording the draws changes nothing else of the run. *)
Theorem one_draw_per_pass (m : model D) data g st m' g' :
  fit choice m data g = Ok (st, m', g') →
  ∃ log, fit (logged choice) m data (g, []) = Ok (st, m', (g', log))
       ∧ Z.of_nat (length log)
         = (Z.of_nat (length data) * (1 + Z.max 0 (num_iter m)))%Z.
Proof.
  intros H. unfold fit in H |- *. unfold initialize_assn in *.
  pose proof (init_loop_logged m data (seq 0 (length data)) (PState [] [] []) g [])
    as Hi. unfold follows in Hi.
  destruct (init_loop choice m data _ _ g) as [[st0 g0]|e]; simpl in H; [|done].
  destruct Hi as (cs & Hlen & ->). simpl. rewrite length_seq in Hlen.
  pose proof (fit_loop_logged m data (py_range (num_iter m)) st0 g0 cs) as Hl.
  rewrite H in Hl. destruct Hl as (cs' & Hlen' & ->).
  exists (cs ++ cs'). split; [done|].
  rewrite length_app, Hlen, Hlen'. unfold py_range.
  rewrite length_fmap, length_seq. nia.
Qed.

End Draws.

Lemma one_draw_per_pass_witness :
  (∃ st m' g' log,
     fit Reference.choice demo_model demo_data 7%Z = Ok (st, m', g')
     ∧ fit (logged Reference.choice) demo_model demo_data (7%Z, [])
       = Ok (st, m', (g', log))
     ∧ Z.of_nat (length log) = 303%Z)
  ∧ (∃ st m' g' log,
       fit Reference.choice no_sweep_model demo_data 7%Z = Ok (st, m', g')
       ∧ fit (logged Reference.choice) no_sweep_model demo_data (7%Z, [])
         = Ok (st, m', (g', log))
       ∧ Z.of_nat (length log) = 3%Z).
Proof.
  split.
  - let v := eval vm_compute in (fit Reference.choice demo_model demo_data 7%Z) in
    match v with
    | Ok (?st, ?m', ?g') =>
        assert (H : fit Reference.choice demo_model demo_data 7%Z = Ok (st, m', g'))
          by (vm_compute; reflexivity);
        destruct (one_draw_per_pass Reference.choice demo_model demo_data 7%Z
                    st m' g' H) as (log & Hlog & Hlen);
        exists st, m', g', log; exact (conj H (conj Hlog Hlen))
    end.
  - let v := eval vm_compute in (fit Reference.choice no_sweep_model demo_data 7%Z) in
    match v with
    | Ok (?st, ?m', ?g') =>
        assert (H : fit Reference.choice no_sweep_model demo_data 7%Z = Ok (st, m', g'))
          by (vm_compute; reflexivity);
        destruct (one_draw_per_pass Reference.choice no_sweep_model demo_data 7%Z
                    st m' g' H) as (log & Hlog & Hlen);
        exists st, m', g', log; exact (conj H (conj Hlog Hlen))
    end.
Defined.

(** ** The alpha a run leaves *)

Lemma forallb_pointwise {A} (f f' : A → bool) (l : list A) :
  (∀ x, f x = f' x) → forallb f l = forallb f' l.
Proof. intros Hf. induction l as [|x l IH]; simpl; [done|]. by rewrite Hf, IH. Qed.

Section FinalAlpha.
Context {D rng : Type}.
Variable choice : rng → nat → list float → result (nat * rng).

Lemma eb_fires_set_alpha (m : model D) (a : float) (t : Z) :
  eb_fires (set_alpha m a) t = eb_fires m t.
Proof. done. Qed.

Lemma fit_loop_schedule (m : model D) data ts st g st' m' g' :
  fit_loop choice m data ts st g = Ok (st', m', g') →
  ∀ t, eb_fires m' t = eb_fires m t.
Proof.
  intros H t. apply fit_loop_model in H as [-> | (k & _ & ->)]; done.
Qed.

Lemma fit_loop_quiet (m : model D) data ts st g st' m' g' :
  forallb (λ t, negb (eb_fires m t)) ts = true →
  fit_loop choice m data ts st g = Ok (st', m', g') → m' = m.
Proof.
  revert st g. induction ts as [|t ts IH]; intros st g Hq H; simpl in H.
  - by injection H as <- <- <-.
  - simpl in Hq. apply andb_true_iff in Hq as [Ht Hq]. apply negb_true_iff in Ht.
    ok_inv H. unfold sweep in Hx. ok_inv Hx. injection Hx as <- <- <-.
    match goal with
    | Heb : eb_adjust m t _ = Ok ?mt |- _ =>
        assert (mt = m) as ->;
        [unfold eb_adjust, eb_fires in *; destruct (decide _); [done|];
         rewrite Ht in Heb; by injection Heb as <- |]
    end.
    by eapply IH.
Qed.

(** X13.  The alpha a returned run leaves on the model is the number of
    clusters created in the last sweep that passed the Empirical Bayes test,
    whatever the later sweeps create.  For the constants of [__init__] and
    100 sweeps this is sweep 95. *)
Theorem final_alpha (m : model D) data g (t : nat) st m' g' :
  fit choice m data g = Ok (st, m', g') →
  (Z.of_nat t < num_iter m)%Z →
  last_adjustment m t = true →
  ∃ sa ma ga sb mb gb,
    sweeps_prefix choice m data g t = Ok (sa, ma, ga)
    ∧ sweeps_prefix choice m data g (S t) = Ok (sb, mb, gb)
    ∧ alpha m' = count_float (length (store sb) - length (store sa)).
Proof.
  intros H Ht Hlast. apply andb_true_iff in Hlast as [Hfire Hquiet].
  rewrite (fit_through_sweeps choice m data g (S t)) in H by lia.
  assert (Hsplit : sweeps_prefix choice m data g (S t)
    = '(sa, ma, ga) ← sweeps_prefix choice m data g t;
      sweep choice ma data (Z.of_nat t) sa ga).
  { unfold sweeps_prefix.
    destruct (initialize_assn choice m data g) as [[st0 g0]|e]; simpl; [|done].
    unfold py_range. rewrite !Nat2Z.id.
    replace (S t) with (t + 1) by lia.
    rewrite seq_app, fmap_app, fit_loop_app. simpl.
    destruct (fit_loop choice m data (Z.of_nat <$> seq 0 t) st0 g0)
      as [[[s1 m1] g1]|e]; simpl; [|done].
    by destruct (sweep choice m1 data (Z.of_nat t) s1 g1) as [[[s2 m2] g2]|e]. }
  destruct (sweeps_prefix choice m data g (S t)) as [[[sb mb] gb]|e] eqn:Hb;
    simpl in H; [|done].
  destruct (sweeps_prefix choice m data g t) as [[[sa ma] ga]|e] eqn:Ha;
    simpl in Hsplit; [|done].
  exists sa, ma, ga, sb, mb, gb. split; [done|]. split; [done|].
  assert (Hsched : ∀ t', eb_fires ma t' = eb_fires m t').
  { unfold sweeps_prefix in Ha.
    destruct (initialize_assn choice m data g) as [[st0 g0]|e]; simpl in Ha; [|done].
    by eapply fit_loop_schedule. }
  symmetry in Hsplit. unfold sweep in Hsplit. ok_inv Hsplit.
  injection Hsplit as -> -> ->.
  match goal with
  | Hloop : sweep_loop choice ma data _ sa 0 ga = Ok (?s, ?c, _),
    Heb : eb_adjust ma _ ?c = Ok ?mt |- _ =>
      pose proof (sweep_loop_count choice ma data _ sa 0 ga _ _ _ Hloop) as [Hle ->];
      assert (mt = set_alpha ma (count_float (length (store s) - length (store sa))))
        as Hmb;
      [unfold eb_adjust in Heb; destruct (decide _); [done|];
       specialize (Hsched (Z.of_nat t)); unfold eb_fires in Hsched, Hfire;
       rewrite Hfire in Hsched; rewrite Hsched in Heb; by injection Heb as <- |]
  end.
  assert (m' = mb) as ->.
  { eapply fit_loop_quiet; [|done]. rewrite <- Hquiet.
    apply forallb_pointwise. intros t'. f_equal.
    rewrite Hmb. rewrite eb_fires_set_alpha. apply Hsched. }
  by rewrite Hmb.
Qed.

End FinalAlpha.

Lemma final_alpha_witness :
  ∃ r ra rb,
    fit Reference.choice demo_model demo_data 7%Z = Ok r
    ∧ sweeps_prefix Reference.choice demo_model demo_data 7%Z 95 = Ok ra
    ∧ sweeps_prefix Reference.choice demo_model demo_data 7%Z 96 = Ok rb
    ∧ alpha r.1.2 = count_float (length (store rb.1.1) - length (store ra.1.1)).
Proof.
  assert (∃ r, fit Reference.choice demo_model demo_data 7%Z = Ok r) as [[[st m'] g'] H].
  { eexists. vm_compute. reflexivity. }
  destruct (final_alpha Reference.choice demo_model demo_data 7%Z 95 st m' g' H)
    as (sa & ma & ga & sb & mb & gb & Ha & Hb & Halpha);
    [reflexivity | reflexivity |].
  exists (st, m', g'), (sa, ma, ga), (sb, mb, gb).
  exact (conj H (conj Ha (conj Hb Halpha))).
Defined.

(** ** Repeated runs *)

Section DrawsOfARun.
Context {D rng : Type}.









End DrawsOfARun.

Section SameDraws.
Context {D rng1 rng2 : Type}.
Variable choice1 : rng1 → nat → list float → result (nat * rng1).
Variable choice2 : rng2 → nat → list float → result (nat * rng2).





End SameDraws.

Section Runs.
Context {D rng : Type}.
Variable choice : rng → nat → list float → result (nat * rng).



End Runs.


